(** * SpECTRE: the UpdateU action, the DataBox it mutates, the history of a
      time stepper, and the is_size trait

    A shallow embedding of

    - [src/ControlSystem/IsSize.hpp]    (module [control_system]),
    - [src/Time/Actions/UpdateU.hpp]    (module [Actions]),

    together with the two collaborators that UpdateU calls and whose code
    is in other files of the repository: the DataBox ([db::get],
    [db::mutate]; module [db]) and the time stepper with its history
    (module [TimeSteppers]).  Both are written after sections 3, 4 and 6
    of the specification, and each of their definitions says so. *)

From stdpp Require Import gmap strings list sorting.

(** ** control_system::size::is_size *)

Module control_system.
Section IsSize.

(** [domain::ObjectLabel] is declared in Domain/Structure/ObjectLabel.hpp;
    the trait does not look inside it. *)
Variable ObjectLabel : Type.

(** The types a [typename T] can be bound to.  [Size Horizon DerivOrder]
    is [control_system::Systems::Size<Horizon, DerivOrder>], whose
    arguments are values (a label and a [size_t]); every other class
    template takes types, which is why [tt::is_a] cannot be used. *)
#[warnings="-register-all"]
Inductive CppType : Type :=
| Size (Horizon : ObjectLabel) (DerivOrder : N)
| Class (name : string) (arguments : list CppType)
| Fundamental (name : string)
| Const (T : CppType)
| Volatile (T : CppType)
| Pointer (T : CppType)
| LvalueReference (T : CppType)
| RvalueReference (T : CppType).

(** [std::integral_constant<bool, v>] with its [::value]. *)
Record integral_constant : Type := { value : bool }.
Definition false_type : integral_constant := {| value := false |}.
Definition true_type : integral_constant := {| value := true |}.

(** The primary template derives from [std::false_type]; the partial
    specialisation for [Systems::Size<Label, DerivOrder>] from
    [std::true_type]. *)
Definition is_size (T : CppType) : integral_constant :=
  match T with
  | Size Label DerivOrder => true_type
  | _ => false_type
  end.

Definition is_size_v (T : CppType) : bool := value (is_size T).

End IsSize.

Arguments Size {ObjectLabel} Horizon DerivOrder.
Arguments Class {ObjectLabel} name arguments.
Arguments Fundamental {ObjectLabel} name.
Arguments Const {ObjectLabel} T.
Arguments Volatile {ObjectLabel} T.
Arguments Pointer {ObjectLabel} T.
Arguments LvalueReference {ObjectLabel} T.
Arguments RvalueReference {ObjectLabel} T.
Arguments is_size {ObjectLabel} T.
Arguments is_size_v {ObjectLabel} T.

(** The labels of Domain/Structure/ObjectLabel.hpp, for the examples. *)
Inductive ObjectLabel : Type := A | B | None_.

Example is_size_v_Size : is_size_v (Size A 2) = true.
Proof. reflexivity. Qed.

Example is_size_v_const_Size : is_size_v (Const (Size B 3)) = false.
Proof. reflexivity. Qed.

Example is_size_v_other_template :
  is_size_v (Class "control_system::Systems::Expansion"
                   [Fundamental "double"; Size A 2]) = false.
Proof. reflexivity. Qed.

(** C10. [is_size_v<T>] is true exactly when [T] is
    [control_system::Systems::Size<Label, DerivOrder>] for some object label
    [Label] and some natural number [DerivOrder]; for every other type it
    is false. *)
Theorem is_size_v_iff_Size (Label_t : Type) (T : CppType Label_t) :
  (is_size_v T = true
   ↔ ∃ (Label : Label_t) (DerivOrder : N), T = Size Label DerivOrder)
  ∧ ((¬ ∃ (Label : Label_t) (DerivOrder : N), T = Size Label DerivOrder) →
     is_size_v T = false).
Proof.
  split.
  - split.
    + destruct T; try discriminate. intros _. eauto.
    + intros (Label & DerivOrder & ->). reflexivity.
  - intros Hnot. destruct T; try reflexivity.
    exfalso. apply Hnot. eauto.
Qed.

End control_system.

(** ** Tags *)

(** The types that UpdateU uses as tags.  [Tags_dt tag] is
    [db::add_tag_prefix<Tags::dt, tag>] and
    [Tags_HistoryEvolvedVariables v d] is
    [Tags::HistoryEvolvedVariables<v, d>]; [Named] stands for the tags that
    a system declares (its [variables_tag], and whatever else is in a
    DataBox). *)
Inductive Tag : Type :=
| NoSuchType
| Named (name : string)
| Tags_dt (tag : Tag)
| Tags_HistoryEvolvedVariables (variables_tag dt_variables_tag : Tag)
| Tags_TimeStep.

Global Instance Tag_eq_dec : EqDecision Tag.
Proof. solve_decision. Defined.

Fixpoint Tag_to_tree (t : Tag) : gen_tree string :=
  match t with
  | NoSuchType => GenNode 0 []
  | Named name => GenLeaf name
  | Tags_dt tag => GenNode 1 [Tag_to_tree tag]
  | Tags_HistoryEvolvedVariables v d => GenNode 2 [Tag_to_tree v; Tag_to_tree d]
  | Tags_TimeStep => GenNode 3 []
  end.

Fixpoint Tag_of_tree (g : gen_tree string) : Tag :=
  match g with
  | GenLeaf name => Named name
  | GenNode 1 [g1] => Tags_dt (Tag_of_tree g1)
  | GenNode 2 [g1; g2] =>
      Tags_HistoryEvolvedVariables (Tag_of_tree g1) (Tag_of_tree g2)
  | GenNode 3 [] => Tags_TimeStep
  | GenNode _ _ => NoSuchType
  end.

Lemma Tag_of_to_tree (t : Tag) : Tag_of_tree (Tag_to_tree t) = t.
Proof. induction t; simpl; congruence. Qed.

Global Instance Tag_countable : Countable Tag.
Proof. exact (inj_countable' Tag_to_tree Tag_of_tree Tag_of_to_tree). Defined.

(** A tag is not one of its own template arguments. *)
Lemma Tags_dt_ne (tag : Tag) : Tags_dt tag ≠ tag.
Proof. induction tag; intros H; inversion H; auto. Qed.

Lemma Tags_HistoryEvolvedVariables_ne (v d : Tag) :
  Tags_HistoryEvolvedVariables v d ≠ v.
Proof.
  revert d. induction v as [| | |v1 IH1 v2 IH2|]; intros d H; inversion H.
  by eapply IH1.
Qed.

(** ** The DataBox

    DataStructures/DataBox/DataBox.hpp is not one of the translated files:
    the Box, [get] and [mutate] below follow sections 3, 4.1 and 6 of the
    specification. *)

Module db.
Section DataBox.

(** The payloads, a closed variant per application (section 9). *)
Context {Item : Type}.

(** Modelled from the spec: a derived tag of sections 3 and 6 (a compute
    item of DataBox.hpp), declared with its prerequisite tag list and a
    pure computation over the values of the prerequisites. *)
Record Derived : Type := {
  derived_tag : Tag;
  prerequisites : list Tag;
  computation : list Item → Item;
}.

(** Modelled from the spec: the Box of sections 3 and 4.1 ([db::DataBox]
    of DataBox.hpp).  [stored]
    maps the simple tags to their values; [derived] lists the derived
    tags, a tag after the derived tags that read it (its prerequisites
    are stored tags or stand later in the list); [memo] holds the
    memoized value of every derived tag whose dirty flag is down;
    [computed] logs, oldest first, every run of a declared computation,
    so that runs can be counted. *)
Record DataBox : Type := {
  stored : gmap Tag Item;
  derived : list Derived;
  memo : gmap Tag Item;
  computed : list Tag;
}.

(** Modelled from the spec: a Box as it is created ([db::create]), with
    nothing computed yet. *)
Definition create (items : gmap Tag Item) (ds : list Derived) : DataBox :=
  {| stored := items; derived := ds; memo := ∅; computed := [] |}.

(** Modelled from the spec: the per-tag dirty flag of section 4.1.  The
    flag of a derived tag is up when the tag has no memoized value. *)
Definition dirty (box : DataBox) (t : Tag) : Prop := memo box !! t = None.

(** How often the computation of [t] has run. *)
Definition runs (box : DataBox) (t : Tag) : nat :=
  length (filter (λ u, u = t) (computed box)).

Definition memoize (t : Tag) (v : Item) (box : DataBox) : DataBox :=
  {| stored := stored box;
     derived := derived box;
     memo := <[t := v]> (memo box);
     computed := computed box ++ [t] |}.

(** Reads [tags] from left to right with [read], threading the Box. *)
Definition read_all (read : Tag → DataBox → option Item * DataBox)
  : list Tag → DataBox → option (list Item) * DataBox :=
  fix go tags box :=
    match tags with
    | [] => (Some [], box)
    | t :: tags' =>
        let '(x, box1) := read t box in
        let '(xs, box2) := go tags' box1 in
        (match x, xs with
         | Some x, Some xs => Some (x :: xs)
         | _, _ => None
         end, box2)
    end.

(** Modelled from the spec: [get(tag)] of section 4.1.  A stored tag is
    looked up.  A derived tag returns its memoized value when its dirty
    flag is down; otherwise its prerequisites are read, the declared
    computation runs over them, and the result is memoized.  [None] is
    the read that does not compile (the tag is not in the Box). *)
Fixpoint get_in (ds : list Derived) (t : Tag) (box : DataBox)
  : option Item * DataBox :=
  match ds with
  | [] => (stored box !! t, box)
  | d :: ds' =>
      if decide (derived_tag d = t) then
        match memo box !! t with
        | Some v => (Some v, box)
        | None =>
            let '(args, box1) := read_all (get_in ds') (prerequisites d) box in
            match args with
            | Some args => (Some (computation d args),
                            memoize t (computation d args) box1)
            | None => (None, box1)
            end
        end
      else get_in ds' t box
  end.

Definition get (t : Tag) (box : DataBox) : option Item * DataBox :=
  get_in (derived box) t box.

(** Modelled from the spec: the tags that a mutation of [written] hits
    (section 4.1): [written] itself and the derived tags that depend on a
    tag of [written], directly or through other derived tags. *)
Fixpoint affected (ds : list Derived) (written : list Tag) : gset Tag :=
  match ds with
  | [] => list_to_set written
  | d :: ds' =>
      let below := affected ds' written in
      if decide (Exists (λ p, p ∈ below) (prerequisites d))
      then {[derived_tag d]} ∪ below
      else below
  end.

(** Modelled from the spec: [t] depends on [p] (section 4.1, depending
    transitively): [p] is a prerequisite of the derived tag [t], or of a
    derived tag that [t] depends on. *)
Fixpoint depends_on (ds : list Derived) (t p : Tag) : Prop :=
  match ds with
  | [] => False
  | d :: ds' =>
      (derived_tag d = t
       ∧ Exists (λ q, q = p ∨ depends_on ds' q p) (prerequisites d))
      ∨ depends_on ds' t p
  end.

Definition commit (writes : list (Tag * Item)) (items : gmap Tag Item)
  : gmap Tag Item :=
  foldr (λ w m, <[w.1 := w.2]> m) items writes.

Definition invalidate (hit : gset Tag) (m : gmap Tag Item) : gmap Tag Item :=
  filter (λ kv, kv.1 ∉ hit) m.

(** Modelled from the spec: [mutate] of section 4.1, called as the
    source calls it, [db::mutate<Tags...>(box, invokable, args...)]: the
    invokable gets the current values of the written tags and the values
    the caller has read for it ([args], the read tags of the spec),
    its results are committed, and the dirty flag of every derived tag
    that depends on a written tag goes up.  [None] is the call that does
    not compile: a written tag is not a stored tag of the Box, or the
    invokable does not fit the items. *)
Definition mutate {Args : Type} (tags : list Tag)
    (invokable : list Item → Args → option (list Item)) (args : Args)
    (box : DataBox) : option DataBox :=
  match mapM (λ t, stored box !! t) tags with
  | Some current =>
      match invokable current args with
      | Some new =>
          if decide (length new = length tags) then
            Some {| stored := commit (zip tags new) (stored box);
                    derived := derived box;
                    memo := invalidate (affected (derived box) tags) (memo box);
                    computed := computed box |}
          else None
      | None => None
      end
  | None => None
  end.

(** What a read of [t] returns, whatever has been memoized: the declared
    computations over the stored values. *)
Fixpoint value_in (ds : list Derived) (items : gmap Tag Item) (t : Tag)
  : option Item :=
  match ds with
  | [] => items !! t
  | d :: ds' =>
      if decide (derived_tag d = t)
      then computation d <$> mapM (value_in ds' items) (prerequisites d)
      else value_in ds' items t
  end.

Definition value_of (box : DataBox) (t : Tag) : option Item :=
  value_in (derived box) (stored box) t.

Definition derived_tags (ds : list Derived) : list Tag := derived_tag <$> ds.

(** Section 3: tags are never duplicated within one Box, and every
    prerequisite of a derived tag is in the Box. *)
Fixpoint well_formed (simple : gset Tag) (ds : list Derived) : Prop :=
  match ds with
  | [] => True
  | d :: ds' =>
      (derived_tag d ∉ simple)
      ∧ (derived_tag d ∉ derived_tags ds')
      ∧ Forall (λ p, p ∈ simple ∨ p ∈ derived_tags ds') (prerequisites d)
      ∧ well_formed simple ds'
  end.

(** Every memoized value is the value of its tag. *)
Definition memo_sound (ds : list Derived) (box : DataBox) : Prop :=
  ∀ t v, t ∈ derived_tags ds → memo box !! t = Some v →
         value_in ds (stored box) t = Some v.

Record box_ok (box : DataBox) : Prop := {
  ok_well_formed : well_formed (dom (stored box)) (derived box);
  ok_memo_sound : memo_sound (derived box) box;
}.

(** Modelled from the spec: the accesses to a Box (section 4.1), a read
    of a tag or a mutation of stored tags, and a sequence of them. *)
Inductive Access : Type :=
| Read (t : Tag)
| Write (tags : list Tag) (invokable : list Item → option (list Item)).

Definition access (a : Access) (box : DataBox) : option DataBox :=
  match a with
  | Read t => Some (get t box).2
  | Write tags invokable => mutate tags (λ items _, invokable items) () box
  end.

Fixpoint accesses (l : list Access) (box : DataBox) : option DataBox :=
  match l with
  | [] => Some box
  | a :: l' =>
      match access a box with
      | Some box' => accesses l' box'
      | None => None
      end
  end.

(** An access spares [t] when it writes no tag that [t] depends on. *)
Definition spares (ds : list Derived) (t : Tag) (a : Access) : Prop :=
  match a with
  | Read _ => True
  | Write tags _ => ∀ p, p ∈ tags → ¬ depends_on ds t p
  end.

(** *** What a read may change *)

(** A read through the derived tags [ds] leaves the stored values and the
    declarations alone, touches the memo and the run counts of tags of
    [ds] only, and never drops a memoized value. *)
Record frame (ds : list Derived) (box box' : DataBox) : Prop := {
  frame_stored : stored box' = stored box;
  frame_derived : derived box' = derived box;
  frame_memo : ∀ t, t ∉ derived_tags ds → memo box' !! t = memo box !! t;
  frame_runs : ∀ t, t ∉ derived_tags ds → runs box' t = runs box t;
  frame_keeps : ∀ t v, memo box !! t = Some v → memo box' !! t = Some v;
}.

Lemma frame_refl ds box : frame ds box box.
Proof. by split. Qed.

Lemma frame_trans ds b1 b2 b3 : frame ds b1 b2 → frame ds b2 b3 → frame ds b1 b3.
Proof.
  intros [S1 D1 M1 R1 K1] [S2 D2 M2 R2 K2]. split.
  - congruence.
  - congruence.
  - intros t Ht. rewrite M2, M1; done.
  - intros t Ht. rewrite R2, R1; done.
  - eauto.
Qed.

Lemma frame_weaken d ds b1 b2 : frame ds b1 b2 → frame (d :: ds) b1 b2.
Proof.
  intros [S1 D1 M1 R1 K1]. split; try done.
  - intros t [_ Ht]%not_elem_of_cons. by apply M1.
  - intros t [_ Ht]%not_elem_of_cons. by apply R1.
Qed.

Lemma read_all_frame ds read :
  (∀ t box, frame ds box (read t box).2) →
  ∀ tags box, frame ds box (read_all read tags box).2.
Proof.
  intros Hread tags. induction tags as [|t tags IH]; intros box; simpl.
  - apply frame_refl.
  - specialize (Hread t box). destruct (read t box) as [x box1]. simpl in Hread.
    specialize (IH box1). destruct (read_all read tags box1) as [xs box2].
    simpl in *. by eapply frame_trans.
Qed.

Lemma runs_memoize_eq t v box : runs (memoize t v box) t = S (runs box t).
Proof.
  unfold runs, memoize. simpl. rewrite filter_app, length_app. simpl.
  rewrite filter_cons_True by done. simpl. lia.
Qed.

Lemma runs_memoize_ne t u v box : u ≠ t → runs (memoize t v box) u = runs box u.
Proof.
  intros Hne. unfold runs, memoize. simpl. rewrite filter_app, length_app.
  rewrite filter_cons_False by congruence. simpl. lia.
Qed.

Lemma get_in_frame ds : ∀ t box, frame ds box (get_in ds t box).2.
Proof.
  induction ds as [|d ds IH]; intros t box; simpl.
  - apply frame_refl.
  - destruct (decide (derived_tag d = t)) as [Heq|Hne].
    + destruct (memo box !! t) as [v|] eqn:Hmemo; simpl.
      { apply frame_refl. }
      pose proof (read_all_frame ds (get_in ds) IH (prerequisites d) box) as Hf.
      destruct (read_all (get_in ds) (prerequisites d) box) as [[args|] box1];
        simpl in *; [|by apply frame_weaken].
      destruct Hf as [S1 D1 M1 R1 K1]. split; simpl; try done.
      * intros u [Hu1 Hu2]%not_elem_of_cons.
        rewrite lookup_insert_ne by congruence. by apply M1.
      * intros u [Hu1 Hu2]%not_elem_of_cons.
        rewrite runs_memoize_ne by congruence. by apply R1.
      * intros u w Hw. destruct (decide (t = u)) as [->|Htu]; [congruence|].
        rewrite lookup_insert_ne by done. by apply K1.
    + apply frame_weaken, IH.
Qed.

Lemma get_frame t box : frame (derived box) box (get t box).2.
Proof. apply get_in_frame. Qed.

(** *** A read returns the value of the tag *)

Lemma well_formed_NoDup simple ds :
  well_formed simple ds → NoDup (derived_tags ds).
Proof.
  induction ds as [|d ds IH]; simpl.
  - intros _. constructor.
  - intros (_ & Hd & _ & Hwf). constructor; auto.
Qed.

Lemma value_in_skip d ds items t :
  derived_tag d ≠ t → value_in (d :: ds) items t = value_in ds items t.
Proof. intros Hne. simpl. by rewrite decide_False. Qed.

Lemma memo_sound_tail d ds box :
  derived_tag d ∉ derived_tags ds → memo_sound (d :: ds) box → memo_sound ds box.
Proof.
  intros Hd Hs t v Ht Hm.
  rewrite <- (value_in_skip d); [|intros Heq; subst t; done].
  apply Hs; [|done]. simpl. by right.
Qed.

Lemma read_all_value ds :
  (∀ t box, memo_sound ds box →
     (get_in ds t box).1 = value_in ds (stored box) t
     ∧ memo_sound ds (get_in ds t box).2) →
  ∀ tags box, memo_sound ds box →
    (read_all (get_in ds) tags box).1 = mapM (value_in ds (stored box)) tags
    ∧ memo_sound ds (read_all (get_in ds) tags box).2.
Proof.
  intros Hget tags. induction tags as [|t tags IH]; intros box Hs; simpl.
  - done.
  - destruct (Hget t box Hs) as [Hx Hs1].
    pose proof (frame_stored _ _ _ (get_in_frame ds t box)) as Hst.
    destruct (get_in ds t box) as [x box1]. simpl in *.
    destruct (IH box1 Hs1) as [Hxs Hs2].
    destruct (read_all (get_in ds) tags box1) as [xs box2]. simpl in *.
    split; [|done]. rewrite Hst in Hxs. rewrite <- Hx, <- Hxs.
    by destruct x, xs.
Qed.

Lemma get_in_value ds :
  NoDup (derived_tags ds) →
  ∀ t box, memo_sound ds box →
    (get_in ds t box).1 = value_in ds (stored box) t
    ∧ memo_sound ds (get_in ds t box).2.
Proof.
  induction ds as [|d ds IH]; intros Hnd t box Hs.
  - done.
  - apply NoDup_cons in Hnd as [Hd Hnd]. specialize (IH Hnd).
    pose proof (memo_sound_tail d ds box Hd Hs) as Hs'.
    simpl. destruct (decide (derived_tag d = t)) as [Heq|Hne].
    + destruct (memo box !! t) as [v|] eqn:Hmemo; simpl.
      { split; [|done]. symmetry.
        assert (Hv := Hs t v). simpl in Hv. rewrite decide_True in Hv by done.
        apply Hv; [|done]. subst t. by left. }
      destruct (read_all_value ds IH (prerequisites d) box Hs') as [Hargs Hs1].
      pose proof (read_all_frame ds _ (get_in_frame ds) (prerequisites d) box) as Hf.
      destruct (read_all (get_in ds) (prerequisites d) box) as [args box1].
      simpl in *. rewrite <- Hargs.
      destruct Hf as [S1 D1 M1 R1 K1].
      destruct args as [args|]; simpl; (split; [done|]).
      * intros u w [->|Hu]%elem_of_cons Hw; simpl in *.
        -- rewrite Heq in *. rewrite lookup_insert_eq in Hw.
           rewrite decide_True by done. rewrite S1, <- Hargs. simpl. congruence.
        -- assert (u ≠ t) as Hut by (intros ->; subst; done).
           rewrite lookup_insert_ne in Hw by done.
           rewrite decide_False by congruence. by apply Hs1.
      * intros u w [->|Hu]%elem_of_cons Hw.
        -- rewrite M1, Heq in Hw by done. congruence.
        -- rewrite value_in_skip by (intros Hx; rewrite Hx in Hd; done).
           by apply Hs1.
    + destruct (IH t box Hs') as [Hv Hs1]. split; [done|].
      pose proof (get_in_frame ds t box) as [S1 D1 M1 R1 K1].
      intros u w [->|Hu]%elem_of_cons Hw.
      * rewrite M1 in Hw by done. rewrite S1. apply Hs; [by left|done].
      * rewrite value_in_skip by (intros Hx; rewrite Hx in Hd; done).
        by apply Hs1.
Qed.

Lemma get_value t box :
  box_ok box → (get t box).1 = value_of box t ∧ box_ok (get t box).2.
Proof.
  intros [Hwf Hs]. unfold get, value_of.
  destruct (get_in_value (derived box) (well_formed_NoDup _ _ Hwf) t box Hs)
    as [Hv Hs1].
  destruct (get_in_frame (derived box) t box) as [S1 D1 _ _ _].
  split; [done|]. split.
  - by rewrite S1, D1.
  - by rewrite D1.
Qed.

(** In a well-formed Box every tag has a value. *)
Lemma value_in_total ds (items : gmap Tag Item) :
  well_formed (dom items) ds →
  ∀ t, t ∈ dom items ∨ t ∈ derived_tags ds → is_Some (value_in ds items t).
Proof.
  induction ds as [|d ds IH]; simpl.
  - intros _ t [Ht|Ht].
    + by apply elem_of_dom.
    + by apply elem_of_nil in Ht.
  - intros (Hsimple & Hd & Hpre & Hwf) t Ht.
    destruct (decide (derived_tag d = t)) as [Heq|Hne].
    + apply fmap_is_Some, mapM_is_Some. eapply Forall_impl; [exact Hpre|].
      intros p Hp. by apply IH.
    + apply IH; [done|]. destruct Ht as [Ht|Ht]; [by left|right].
      apply elem_of_cons in Ht as [Ht|Ht]; [congruence|done].
Qed.

(** *** Memoization *)

(** A read of a derived tag whose dirty flag is down returns the
    memoized value and changes nothing. *)
Lemma get_in_clean ds t v box :
  t ∈ derived_tags ds → memo box !! t = Some v →
  get_in ds t box = (Some v, box).
Proof.
  induction ds as [|d ds IH]; simpl.
  - by intros ?%elem_of_nil.
  - intros Ht Hm. destruct (decide (derived_tag d = t)) as [Heq|Hne].
    + by rewrite Hm.
    + apply IH; [|done]. apply elem_of_cons in Ht as [Ht|Ht]; [congruence|done].
Qed.

(** A read that returns a value leaves it memoized. *)
Lemma get_in_memoizes ds t v box :
  t ∈ derived_tags ds → (get_in ds t box).1 = Some v →
  memo (get_in ds t box).2 !! t = Some v.
Proof.
  induction ds as [|d ds IH]; simpl.
  - by intros ?%elem_of_nil.
  - intros Ht. destruct (decide (derived_tag d = t)) as [Heq|Hne].
    + destruct (memo box !! t) as [w|] eqn:Hm; simpl; [congruence|].
      destruct (read_all (get_in ds) (prerequisites d) box) as [[args|] box1];
        simpl; [|done].
      intros [= <-]. apply lookup_insert_eq.
    + apply IH. apply elem_of_cons in Ht as [Ht|Ht]; [congruence|done].
Qed.

(** A read of a derived tag whose dirty flag is up runs the computation
    of that tag once. *)
Lemma get_in_dirty_runs ds t v box :
  NoDup (derived_tags ds) → t ∈ derived_tags ds → memo box !! t = None →
  (get_in ds t box).1 = Some v →
  runs (get_in ds t box).2 t = S (runs box t).
Proof.
  induction ds as [|d ds IH]; simpl.
  - by intros _ ?%elem_of_nil.
  - intros [Hd Hnd]%NoDup_cons Ht Hm.
    destruct (decide (derived_tag d = t)) as [Heq|Hne].
    + rewrite Hm.
      pose proof (read_all_frame ds _ (get_in_frame ds) (prerequisites d) box) as Hf.
      destruct (read_all (get_in ds) (prerequisites d) box) as [[args|] box1];
        simpl; [|done].
      intros _. rewrite runs_memoize_eq. f_equal.
      apply (frame_runs _ _ _ Hf). by rewrite <- Heq.
    + apply IH; [done| |done].
      apply elem_of_cons in Ht as [Ht|Ht]; [congruence|done].
Qed.

(** A read runs the computation of no tag whose dirty flag is down. *)
Lemma read_all_runs_clean ds read t v :
  (∀ u box, frame ds box (read u box).2) →
  (∀ u box, memo box !! t = Some v → runs (read u box).2 t = runs box t) →
  ∀ tags box, memo box !! t = Some v →
    runs (read_all read tags box).2 t = runs box t.
Proof.
  intros Hframe Hread tags.
  induction tags as [|u tags IH]; intros box Hm; simpl; [done|].
  specialize (Hread u box Hm). specialize (Hframe u box).
  destruct (read u box) as [x box1]. simpl in *.
  specialize (IH box1 (frame_keeps _ _ _ Hframe t v Hm)).
  destruct (read_all read tags box1) as [xs box2]. simpl in *. congruence.
Qed.

Lemma get_in_runs_clean ds t v :
  ∀ u box, memo box !! t = Some v → runs (get_in ds u box).2 t = runs box t.
Proof.
  induction ds as [|d ds IH]; intros u box Hm; simpl; [done|].
  destruct (decide (derived_tag d = u)) as [Heq|Hne]; [|by apply IH].
  destruct (memo box !! u) as [w|] eqn:Hu; [done|].
  assert (t ≠ u) as Htu by congruence.
  pose proof (read_all_runs_clean ds (get_in ds) t v (get_in_frame ds) IH
                (prerequisites d) box Hm) as Hruns.
  destruct (read_all (get_in ds) (prerequisites d) box) as [[args|] box1];
    simpl in *; [|done].
  by rewrite runs_memoize_ne.
Qed.

(** *** What a mutation changes *)

Lemma affected_written ds written t : t ∈ written → t ∈ affected ds written.
Proof.
  intros Ht. induction ds as [|d ds IH]; simpl.
  - by apply elem_of_list_to_set.
  - destruct (decide _); [apply elem_of_union_r|]; done.
Qed.

(** A derived tag with a written prerequisite is affected. *)
Lemma affected_dependent ds written d p :
  d ∈ ds → p ∈ prerequisites d → p ∈ written →
  derived_tag d ∈ affected ds written.
Proof.
  intros Hd Hp Hw. induction ds as [|d' ds IH]; simpl.
  - by apply elem_of_nil in Hd.
  - apply elem_of_cons in Hd as [->|Hd].
    + rewrite decide_True; [set_solver|].
      apply Exists_exists. exists p. split; [done|]. by apply affected_written.
    + destruct (decide _); [|by apply IH].
      apply elem_of_union_r. by apply IH.
Qed.

(** A tag that is neither written nor derived is not affected. *)
Lemma affected_within ds written t :
  t ∈ affected ds written → t ∈ written ∨ t ∈ derived_tags ds.
Proof.
  induction ds as [|d ds IH]; simpl.
  - intros Ht%elem_of_list_to_set. by left.
  - destruct (decide _).
    + intros [->%elem_of_singleton|Ht]%elem_of_union.
      * right. by left.
      * destruct (IH Ht); [by left|right; by right].
    + intros Ht. destruct (IH Ht); [by left|right; by right].
Qed.

(** The affected tags are the written tags and the tags that depend on
    one of them. *)
Lemma depends_affected ds written t p :
  p ∈ written → depends_on ds t p → t ∈ affected ds written.
Proof.
  intros Hw. revert t. induction ds as [|d ds IH]; simpl; intros t; [done|].
  intros [[<- Hex]|Hdep].
  - rewrite decide_True; [set_solver|].
    apply Exists_exists in Hex as (q & Hq & Hqp).
    apply Exists_exists. exists q. split; [done|].
    destruct Hqp as [->|Hdep]; [by apply affected_written|by apply IH].
  - destruct (decide _); [apply elem_of_union_r|]; by apply IH.
Qed.

Lemma affected_depends ds written t :
  t ∈ affected ds written →
  t ∈ written ∨ ∃ p, p ∈ written ∧ depends_on ds t p.
Proof.
  revert t. induction ds as [|d ds IH]; simpl; intros t.
  - intros Ht%elem_of_list_to_set. by left.
  - destruct (decide _) as [Hex|_].
    + intros [->%elem_of_singleton|Ht]%elem_of_union.
      * right. apply Exists_exists in Hex as (q & Hq & Hin).
        destruct (IH q Hin) as [Hw|(p & Hw & Hdep)].
        -- exists q. split; [done|]. left. split; [done|].
           apply Exists_exists. exists q. split; [done|]. by left.
        -- exists p. split; [done|]. left. split; [done|].
           apply Exists_exists. exists q. split; [done|]. by right.
      * destruct (IH t Ht) as [Hw|(p & Hw & Hdep)]; [by left|].
        right. exists p. split; [done|]. by right.
    + intros Ht. destruct (IH t Ht) as [Hw|(p & Hw & Hdep)]; [by left|].
      right. exists p. split; [done|]. by right.
Qed.

(** A derived tag depends on each of its prerequisites. *)
Lemma prerequisite_depends ds d p :
  d ∈ ds → p ∈ prerequisites d → depends_on ds (derived_tag d) p.
Proof.
  intros Hd Hp. induction ds as [|d' ds IH]; simpl.
  - by apply elem_of_nil in Hd.
  - apply elem_of_cons in Hd as [->|Hd]; [left|right; by apply IH].
    split; [done|]. apply Exists_exists. exists p. split; [done|]. by left.
Qed.

(** Only derived tags depend on anything. *)
Lemma depends_on_derived ds t p : depends_on ds t p → t ∈ derived_tags ds.
Proof.
  induction ds as [|d ds IH]; simpl; [done|].
  intros [[<- _]|Hdep]; [by left|right; by apply IH].
Qed.

(** A derived tag is not a stored tag. *)
Lemma derived_not_stored simple ds t :
  well_formed simple ds → t ∈ derived_tags ds → t ∉ simple.
Proof.
  induction ds as [|d ds IH]; simpl.
  - intros _ Ht. by apply elem_of_nil in Ht.
  - intros (Hd & _ & _ & Hwf) [->|Ht]%elem_of_cons; [done|by apply IH].
Qed.

Lemma commit_lookup_ne writes (items : gmap Tag Item) t :
  t ∉ writes.*1 → commit writes items !! t = items !! t.
Proof.
  induction writes as [|[u x] writes IH]; simpl; [done|].
  intros [Hne Ht]%not_elem_of_cons. rewrite lookup_insert_ne by done. by apply IH.
Qed.

Lemma commit_dom writes (items : gmap Tag Item) :
  Forall (λ t, t ∈ dom items) writes.*1 → dom (commit writes items) = dom items.
Proof.
  induction writes as [|[u x] writes IH]; simpl; [done|].
  intros [Hu Hrest]%Forall_cons. rewrite dom_insert_L, IH by done.
  by apply subseteq_union_1_L, singleton_subseteq_l.
Qed.

Lemma mapM_lookup_dom (items : gmap Tag Item) tags current :
  mapM (λ t, items !! t) tags = Some current → Forall (λ t, t ∈ dom items) tags.
Proof.
  intros H. assert (is_Some (mapM (λ t, items !! t) tags)) as Hs by eauto.
  apply mapM_is_Some in Hs. eapply Forall_impl; [exact Hs|].
  intros t Ht. by apply elem_of_dom.
Qed.

Lemma zip_fst_subset {X Y} (l : list X) (k : list Y) x : x ∈ (zip l k).*1 → x ∈ l.
Proof.
  revert k. induction l as [|a l IH]; intros [|b k]; simpl;
    try by intros ?%elem_of_nil.
  intros [->|Hx]%elem_of_cons; [by left|right; eauto].
Qed.

(** The value of a tag that is not affected by a write does not change
    with the written values. *)
Lemma value_in_unaffected ds written (items items' : gmap Tag Item) :
  (∀ t, t ∉ written → items' !! t = items !! t) →
  ∀ t, t ∉ affected ds written → value_in ds items' t = value_in ds items t.
Proof.
  intros Hsame. induction ds as [|d ds IH]; simpl; intros t Ht.
  - apply Hsame. intros Hin. apply Ht. by apply elem_of_list_to_set.
  - destruct (decide (Exists _ _)) as [Hex|Hex].
    + apply not_elem_of_union in Ht as [Ht1%not_elem_of_singleton Ht2].
      destruct (decide (derived_tag d = t)) as [Heq|Hne]; [congruence|].
      by apply IH.
    + destruct (decide (derived_tag d = t)) as [Heq|Hne]; [|by apply IH].
      f_equal. apply Forall_mapM_ext, Forall_forall. intros p Hp.
      apply IH. intros Hin. apply Hex, Exists_exists. eauto.
Qed.

Section Mutate.
Context {Args : Type}.
Variables (tags : list Tag) (invokable : list Item → Args → option (list Item))
          (args : Args) (box box' : DataBox).
Hypothesis Hmutate : mutate tags invokable args box = Some box'.

Lemma mutate_Some :
  ∃ current new,
    mapM (λ t, stored box !! t) tags = Some current
    ∧ invokable current args = Some new
    ∧ length new = length tags
    ∧ box' = {| stored := commit (zip tags new) (stored box);
                derived := derived box;
                memo := invalidate (affected (derived box) tags) (memo box);
                computed := computed box |}.
Proof using Hmutate.
  unfold mutate in Hmutate.
  destruct (mapM _ tags) as [current|] eqn:Hcur; [|done].
  destruct (invokable current args) as [new|] eqn:Hnew; [|done].
  destruct (decide _) as [Hlen|]; [|done].
  exists current, new. by inversion Hmutate.
Qed.

Lemma mutate_derived : derived box' = derived box.
Proof using Hmutate. by destruct mutate_Some as (? & ? & _ & _ & _ & ->). Qed.

Lemma mutate_computed : computed box' = computed box.
Proof using Hmutate. by destruct mutate_Some as (? & ? & _ & _ & _ & ->). Qed.

Lemma mutate_memo :
  memo box' = invalidate (affected (derived box) tags) (memo box).
Proof using Hmutate. by destruct mutate_Some as (? & ? & _ & _ & _ & ->). Qed.

Lemma mutate_stored_ne t : t ∉ tags → stored box' !! t = stored box !! t.
Proof using Hmutate.
  destruct mutate_Some as (current & new & _ & _ & _ & ->). simpl.
  intros Ht. apply commit_lookup_ne. intros Hin. apply Ht. by eapply zip_fst_subset.
Qed.

Lemma mutate_dom : dom (stored box') = dom (stored box).
Proof using Hmutate.
  destruct mutate_Some as (current & new & Hcur & _ & _ & ->). simpl.
  apply commit_dom. apply Forall_forall. intros t Ht%zip_fst_subset.
  pose proof (mapM_lookup_dom _ _ _ Hcur) as Hdom.
  by eapply Forall_forall in Hdom.
Qed.

(** The dirty flag of a derived tag that has a written prerequisite
    goes up. *)
Lemma mutate_dirties d p :
  d ∈ derived box → p ∈ prerequisites d → p ∈ tags →
  dirty box' (derived_tag d).
Proof using Hmutate.
  intros Hd Hp Hw. unfold dirty. rewrite mutate_memo.
  apply map_lookup_filter_None. right. intros v _ Hnot. apply Hnot.
  simpl. by eapply affected_dependent.
Qed.

(** So does the dirty flag of every tag that depends on a written tag. *)
Lemma mutate_dirties_depending t p :
  depends_on (derived box) t p → p ∈ tags → dirty box' t.
Proof using Hmutate.
  intros Hdep Hw. unfold dirty. rewrite mutate_memo.
  apply map_lookup_filter_None. right. intros v _ Hnot. apply Hnot.
  simpl. by eapply depends_affected.
Qed.

(** A mutation that succeeds writes stored tags only. *)
Lemma mutate_writes_stored : Forall (λ t, t ∈ dom (stored box)) tags.
Proof using Hmutate.
  destruct mutate_Some as (current & new & Hcur & _).
  by eapply mapM_lookup_dom.
Qed.

Lemma mutate_value_unaffected t :
  t ∉ affected (derived box) tags → value_of box' t = value_of box t.
Proof using Hmutate.
  intros Ht. unfold value_of. rewrite mutate_derived.
  eapply value_in_unaffected; [|done]. apply mutate_stored_ne.
Qed.

Lemma mutate_ok : box_ok box → box_ok box'.
Proof using Hmutate.
  intros [Hwf Hs]. split.
  - by rewrite mutate_dom, mutate_derived.
  - rewrite mutate_derived. intros t v Ht Hm.
    rewrite mutate_memo in Hm.
    apply map_lookup_filter_Some in Hm as [Hm Hnot]. simpl in Hnot.
    rewrite <- (Hs t v Ht Hm).
    eapply value_in_unaffected; [|done]. apply mutate_stored_ne.
Qed.
End Mutate.

Lemma create_ok items ds :
  well_formed (dom items) ds → box_ok (create items ds).
Proof.
  intros Hwf. split; [done|]. intros t v _ Hm. simpl in Hm.
  by rewrite lookup_empty in Hm.
Qed.

(** A write spares the tags that it does not affect. *)
Lemma spares_unaffected ds t tags invokable :
  t ∉ affected ds tags → spares ds t (Write tags invokable).
Proof.
  intros Hnot p Hp Hdep. apply Hnot. by eapply depends_affected.
Qed.

(** Accesses that spare a derived tag leave its memoized value and the
    count of its runs as they are. *)
Lemma access_spares a box box' t v :
  box_ok box → t ∈ derived_tags (derived box) →
  spares (derived box) t a → memo box !! t = Some v →
  access a box = Some box' →
  box_ok box' ∧ derived box' = derived box
  ∧ memo box' !! t = Some v ∧ runs box' t = runs box t.
Proof.
  intros Hok Hin Hsp Hm. destruct a as [u|tags invokable]; simpl.
  - intros [= <-]. destruct (get_value u box Hok) as [_ Hok'].
    pose proof (get_frame u box) as Hf.
    split; [done|]. split; [apply Hf|]. split.
    + by apply (frame_keeps _ _ _ Hf).
    + by eapply get_in_runs_clean.
  - intros Hmut. simpl in Hsp.
    assert (t ∉ affected (derived box) tags) as Hnot.
    { intros [Hw|(p & Hw & Hdep)]%affected_depends; [|by eapply Hsp].
      pose proof (mutate_writes_stored _ _ _ _ _ Hmut) as Hdom.
      eapply Forall_forall in Hdom; [|exact Hw].
      by eapply derived_not_stored; [apply Hok| |]. }
    split; [by eapply mutate_ok|]. split; [by eapply mutate_derived|]. split.
    + rewrite (mutate_memo _ _ _ _ _ Hmut).
      by apply map_lookup_filter_Some.
    + unfold runs. by rewrite (mutate_computed _ _ _ _ _ Hmut).
Qed.

Lemma accesses_spare l : ∀ box box' t v,
  box_ok box → t ∈ derived_tags (derived box) →
  Forall (spares (derived box) t) l → memo box !! t = Some v →
  accesses l box = Some box' →
  box_ok box' ∧ derived box' = derived box
  ∧ memo box' !! t = Some v ∧ runs box' t = runs box t.
Proof.
  induction l as [|a l IH]; intros box box' t v Hok Hin Hsp Hm; simpl.
  - by intros [= <-].
  - apply Forall_cons in Hsp as [Ha Hl].
    destruct (access a box) as [box1|] eqn:Hacc; [|done].
    destruct (access_spares a box box1 t v Hok Hin Ha Hm Hacc)
      as (Hok1 & Hd1 & Hm1 & Hr1).
    intros Hrest. rewrite <- Hd1 in Hl, Hin.
    destruct (IH box1 box' t v Hok1 Hin Hl Hm1 Hrest)
      as (Hok' & Hd' & Hm' & Hr').
    split; [done|]. split; [congruence|]. split; [done|]. congruence.
Qed.

(** Two reads of a derived tag in a row: both return the value of the
    tag, the first runs the computation once if the dirty flag is up and
    changes nothing if it is down, the second changes nothing. *)
Lemma read_twice box t :
  box_ok box → t ∈ derived_tags (derived box) →
  ∃ v box1,
    get t box = (Some v, box1)
    ∧ value_of box t = Some v
    ∧ box_ok box1
    ∧ get t box1 = (Some v, box1)
    ∧ (dirty box t → runs box1 t = S (runs box t))
    ∧ (¬ dirty box t → box1 = box).
Proof.
  intros Hok Hin.
  destruct (get_value t box Hok) as [Hval Hok1].
  destruct (value_in_total (derived box) (stored box) (ok_well_formed _ Hok)
              t (or_intror Hin)) as [v Hv].
  pose proof (get_frame t box) as Hf.
  assert (Hruns := get_in_dirty_runs (derived box) t v box
                     (well_formed_NoDup _ _ (ok_well_formed _ Hok)) Hin).
  assert (Hmemo := get_in_memoizes (derived box) t v box Hin).
  assert (Hclean := λ w, get_in_clean (derived box) t w box Hin).
  unfold get in *. unfold value_of in Hval.
  destruct (get_in (derived box) t box) as [r box1] eqn:Hget.
  simpl in *. rewrite Hv in Hval. subst r.
  exists v, box1. split; [done|]. split; [exact Hv|]. split; [done|].
  split; [|split].
  - rewrite (frame_derived _ _ _ Hf). apply get_in_clean; auto.
  - intros Hdirty. by apply Hruns.
  - unfold dirty. intros Hnot.
    destruct (memo box !! t) as [w|] eqn:Hw; [|done].
    specialize (Hclean w eq_refl). congruence.
Qed.

(** C4, as amended.  For a tag [t] declared as derived with prerequisite
    set [P]: [t] depends on every tag of [P]; reading [t] after a
    mutation of a tag that [t] depends on, directly or through other
    derived tags, triggers exactly one run of the declared computation
    of [t], on the values the Box now holds; reading [t] again, after
    reads of any tags and mutations that write no tag that [t] depends
    on, returns the memoized value and runs nothing (the Box is left as
    it is), so the two reads run the computation exactly once. *)
Theorem derived_read_recomputes_once {Args : Type}
    (box box1 box2 box3 : DataBox) (tags : list Tag)
    (invokable : list Item → Args → option (list Item)) (args : Args)
    (d : Derived) (p : Tag) (first : option Item) (between : list Access) :
  box_ok box →
  d ∈ derived box → depends_on (derived box) (derived_tag d) p → p ∈ tags →
  mutate tags invokable args box = Some box1 →
  get (derived_tag d) box1 = (first, box2) →
  Forall (spares (derived box) (derived_tag d)) between →
  accesses between box2 = Some box3 →
  (∀ q, q ∈ prerequisites d → depends_on (derived box) (derived_tag d) q)
  ∧ ∃ v,
    first = Some v
    ∧ value_of box1 (derived_tag d) = Some v
    ∧ runs box2 (derived_tag d) = S (runs box1 (derived_tag d))
    ∧ get (derived_tag d) box3 = (Some v, box3)
    ∧ runs (get (derived_tag d) box3).2 (derived_tag d)
      = S (runs box1 (derived_tag d)).
Proof.
  intros Hok Hd Hp Hw Hmut Hget Hsp Hacc.
  split; [intros q Hq; by apply prerequisite_depends|].
  pose proof (mutate_ok _ _ _ _ _ Hmut Hok) as Hok1.
  pose proof (mutate_dirties_depending _ _ _ _ _ Hmut _ p Hp Hw) as Hdirty.
  pose proof (mutate_derived _ _ _ _ _ Hmut) as Hder.
  assert (derived_tag d ∈ derived_tags (derived box1)) as Hin.
  { rewrite Hder. unfold derived_tags. by apply list_elem_of_fmap_2. }
  destruct (read_twice box1 (derived_tag d) Hok1 Hin)
    as (v & box2' & Hfirst & Hv & Hok2 & Hsecond & Hruns & _).
  rewrite Hget in Hfirst. injection Hfirst as -> <-.
  pose proof (frame_derived _ _ _ (get_frame (derived_tag d) box1)) as Hder2.
  rewrite Hget in Hder2. simpl in Hder2.
  assert (memo box2 !! derived_tag d = Some v) as Hmemo.
  { pose proof (get_in_memoizes (derived box1) (derived_tag d) v box1 Hin) as Hm.
    unfold get in Hget. rewrite Hget in Hm. by apply Hm. }
  rewrite <- Hder, <- Hder2 in Hsp.
  assert (derived_tag d ∈ derived_tags (derived box2)) as Hin2.
  { by rewrite Hder2. }
  destruct (accesses_spare between box2 box3 (derived_tag d) v Hok2 Hin2 Hsp
              Hmemo Hacc) as (Hok3 & Hder3 & Hmemo3 & Hruns3).
  assert (get (derived_tag d) box3 = (Some v, box3)) as Hagain.
  { unfold get. apply get_in_clean; [|done]. by rewrite Hder3, Hder2. }
  exists v. rewrite Hagain. simpl.
  split; [done|]. split; [done|]. split; [by apply Hruns|].
  split; [done|]. rewrite Hruns3. by apply Hruns.
Qed.

(** A read of a tag that is not derived is the lookup of the stored
    value and leaves the Box as it is. *)
Lemma get_in_not_derived ds t box :
  t ∉ derived_tags ds → get_in ds t box = (stored box !! t, box).
Proof.
  induction ds as [|d ds IH]; simpl; [done|].
  intros [Hne Ht]%not_elem_of_cons.
  rewrite decide_False by congruence. by apply IH.
Qed.

End DataBox.

Arguments Derived : clear implicits.
Arguments DataBox : clear implicits.

(** A Box of integers: the stored tags u and w and the derived tag 2u. *)
Definition u_tag : Tag := Named "u".
Definition w_tag : Tag := Named "w".
Definition twice_u_tag : Tag := Named "2u".

Definition twice_u : Derived Z :=
  {| derived_tag := twice_u_tag;
     prerequisites := [u_tag];
     computation := λ xs, match xs with [x] => (2 * x)%Z | _ => 0%Z end |}.

Definition example_box : DataBox Z :=
  create (<[u_tag := 1%Z]> {[w_tag := 0%Z]}) [twice_u].

Definition set_tag (t : Tag) (x : Z) (box : DataBox Z) : option (DataBox Z) :=
  mutate [t] (λ _ x, Some [x]) x box.

Lemma example_box_ok : box_ok example_box.
Proof.
  apply create_ok. simpl. split; [|split; [|split]]; [| | |done].
  - by vm_compute.
  - intros Hin. by apply elem_of_nil in Hin.
  - apply Forall_cons. split; [|by apply Forall_nil]. left. by vm_compute.
Qed.

Example example_first_read :
  (get twice_u_tag example_box).1 = Some 2%Z
  ∧ runs (get twice_u_tag example_box).2 twice_u_tag = 1.
Proof. by vm_compute. Qed.

(** A write of u between two reads of 2u: the second read computes anew.
    A write of w: it does not. *)
Example example_read_after_write :
  (box1 ← set_tag u_tag 5%Z (get twice_u_tag example_box).2;
   let '(first, box2) := get twice_u_tag box1 in
   box3 ← set_tag w_tag 9%Z box2;
   let '(second, box4) := get twice_u_tag box3 in
   Some (first, second, runs box1 twice_u_tag, runs box2 twice_u_tag,
         runs box4 twice_u_tag))
  = Some (Some 10%Z, Some 10%Z, 1, 2, 2).
Proof. by vm_compute. Qed.

(** A Box with a derived tag whose prerequisite is derived: the stored
    tags s1, s2 and w, q = 10 s2 and t = s1 + q, so that the
    prerequisites of t are s1 and q, and t depends on s1, q and s2. *)
Definition s1_tag : Tag := Named "s1".
Definition s2_tag : Tag := Named "s2".
Definition q_tag : Tag := Named "q".
Definition t_tag : Tag := Named "t".

Definition ten_s2 : Derived Z :=
  {| derived_tag := q_tag;
     prerequisites := [s2_tag];
     computation := λ xs, match xs with [x] => (10 * x)%Z | _ => 0%Z end |}.

Definition s1_plus_q : Derived Z :=
  {| derived_tag := t_tag;
     prerequisites := [s1_tag; q_tag];
     computation := λ xs, match xs with [x; y] => (x + y)%Z | _ => 0%Z end |}.

Definition nested_box : DataBox Z :=
  create (<[s1_tag := 1%Z]> (<[s2_tag := 2%Z]> {[w_tag := 0%Z]}))
         [s1_plus_q; ten_s2].

Lemma nested_box_ok : box_ok nested_box.
Proof.
  apply create_ok. simpl. split; [|split; [|split]].
  - by vm_compute.
  - intros [H|H%elem_of_nil]%elem_of_cons; [by vm_compute in H|done].
  - apply Forall_cons. split; [left; by vm_compute|].
    apply Forall_cons. split; [right; by left|by apply Forall_nil].
  - split; [by vm_compute|]. split; [|split]; [| |done].
    + intros Hin. by apply elem_of_nil in Hin.
    + apply Forall_cons. split; [|by apply Forall_nil]. left. by vm_compute.
Qed.

Lemma t_depends_on_s2 : depends_on (derived nested_box) t_tag s2_tag.
Proof.
  simpl. left. split; [done|]. apply Exists_cons_tl, Exists_cons_hd.
  right. left. split; [done|]. apply Exists_cons_hd. by left.
Qed.

(** A derived prerequisite cannot be written at all. *)
Example derived_prerequisite_is_not_writable :
  q_tag ∈ prerequisites s1_plus_q ∧ set_tag q_tag 7%Z nested_box = None.
Proof. split; [right; by left|by vm_compute]. Qed.

(** C4 as the specification words it does not hold.  The prerequisites
    of t are s1 and q.  After a write of s1 the read of t runs its
    computation once.  The write of s2 that follows writes no
    prerequisite of t, and yet the second read of t runs the computation
    again, because t depends on s2 through q: two reads, no mutation of
    a prerequisite between them, two runs. *)
Lemma write_outside_prerequisites_recomputes :
  box_ok nested_box
  ∧ s1_plus_q ∈ derived nested_box
  ∧ (s2_tag ∉ prerequisites s1_plus_q)
  ∧ (box1 ← set_tag s1_tag 5%Z nested_box;
     let '(first, box2) := get t_tag box1 in
     box3 ← set_tag s2_tag 3%Z box2;
     let '(second, box4) := get t_tag box3 in
     Some (first, second, runs box1 t_tag, runs box2 t_tag,
           runs box4 t_tag))
    = Some (Some 25%Z, Some 35%Z, 0, 1, 2).
Proof.
  split; [exact nested_box_ok|]. split; [by left|]. split; [|by vm_compute].
  intros [H|[H|H%elem_of_nil]%elem_of_cons]%elem_of_cons; by vm_compute in H.
Qed.

(** The Box after s2 is set to 3, after t is read, and after q and t are
    read and w is written. *)
Definition nested_box1 : DataBox Z :=
  default nested_box (set_tag s2_tag 3%Z nested_box).

Definition nested_box2 : DataBox Z := (get t_tag nested_box1).2.

Definition nested_between : list (Access (Item:=Z)) :=
  [Read q_tag; Write [w_tag] (λ _, Some [9%Z]); Read t_tag; Read w_tag].

Definition nested_box3 : DataBox Z :=
  default nested_box2 (accesses nested_between nested_box2).

Lemma derived_read_recomputes_once_witness :
  (∀ q, q ∈ prerequisites s1_plus_q →
        depends_on (derived nested_box) (derived_tag s1_plus_q) q)
  ∧ ∃ v,
    Some 31%Z = Some v
    ∧ value_of nested_box1 t_tag = Some v
    ∧ runs nested_box2 t_tag = S (runs nested_box1 t_tag)
    ∧ get t_tag nested_box3 = (Some v, nested_box3)
    ∧ runs (get t_tag nested_box3).2 t_tag = S (runs nested_box1 t_tag).
Proof.
  apply (derived_read_recomputes_once nested_box nested_box1 nested_box2
           nested_box3 [s2_tag] (λ _ x, Some [x]) 3%Z s1_plus_q s2_tag
           (Some 31%Z) nested_between).
  - exact nested_box_ok.
  - by left.
  - exact t_depends_on_s2.
  - by left.
  - by vm_compute.
  - by vm_compute.
  - repeat constructor. apply spares_unaffected. by vm_compute.
  - by vm_compute.
Defined.

End db.

(** ** The time stepper and its history

    Time/TimeSteppers and Time/History.hpp are not among the translated
    files: the history buffer and the update of a time stepper below
    follow sections 3, 4.3 and 6 of the specification. *)

Module TimeSteppers.
Section TimeStepper.

(** The evolved variables. *)
Context {Vars : Type}.

(** Modelled from the spec: an entry (time, value, time-derivative) of
    the history buffer of section 3.  Time is exact: a number of ticks,
    any integer; a step [dt] is a signed number of ticks, as the
    TimeDelta that UpdateU hands over is signed, and section 4.3 refuses
    the step of zero ticks and no other. *)
Record Sample : Type := {
  time : Z;
  value : Vars;
  derivative : Vars;
}.

(** Modelled from the spec: the history buffer of section 3, oldest
    entry first.  [start] is the time at which the field starts being
    evolved, and [taken] counts the samples taken so far. *)
Record History : Type := {
  start : Z;
  entries : list Sample;
  taken : nat;
}.

(** Modelled from the spec: the time-stepper plug-in interface of
    section 6 for a declared [order] k.  The coefficient formula of the
    weighted combination, the derivative of the evolved system and the
    interpolation formula of dense output are the implementer's
    (section 9). *)
Record TimeStepper : Type := {
  order : nat;
  weighted_combination : Vars → list Sample → Z → Vars;
  derivative_at : Z → Vars → Vars;
  interpolate : list Sample → Z → Vars;
}.

(** Modelled from the spec: the history as it is created (section 3),
    empty, for a field that starts being evolved at [t0]. *)
Definition empty_history (t0 : Z) : History :=
  {| start := t0; entries := []; taken := 0 |}.

Definition times (history : History) : list Z := time <$> entries history.

(** The time the field has reached: that of the newest entry. *)
Definition current_time (history : History) : Z :=
  default (start history) (last (times history)).


(** Modelled from the spec: the invariant of section 3, entries are
    ordered by non-decreasing time. *)
Definition ordered (history : History) : Prop :=
  StronglySorted Z.le (times history).

(** Modelled from the spec: the order contract of section 4.3, ordered
    timestamps and no more entries than the order keeps. *)
Definition consistent (ts : TimeStepper) (history : History) : Prop :=
  ordered history ∧ length (entries history) ≤ order ts.

(** Modelled from the spec: the ramp-up window of section 4.3, the steps
    before [order] samples were taken, which run on what the history
    holds; past it, a history shorter than [order] misses a sample. *)
Definition in_ramp_up (ts : TimeStepper) (history : History) : Prop :=
  taken history < order ts.

Definition sample_missing (ts : TimeStepper) (history : History) : Prop :=
  ¬ in_ramp_up ts history ∧ length (entries history) < order ts.

Global Instance ordered_dec history : Decision (ordered history).
Proof. unfold ordered. apply _. Defined.

Global Instance consistent_dec ts history : Decision (consistent ts history).
Proof. unfold consistent. apply _. Defined.

Global Instance in_ramp_up_dec ts history : Decision (in_ramp_up ts history).
Proof. unfold in_ramp_up. apply _. Defined.

Global Instance sample_missing_dec ts history :
  Decision (sample_missing ts history).
Proof. unfold sample_missing. apply _. Defined.

(** Modelled from the spec: discards the samples older than the [k]
    newest (section 4.3). *)
Definition trim (k : nat) (samples : list Sample) : list Sample :=
  drop (length samples - k) samples.

Inductive Error : Type := ZeroStep | InconsistentHistory | MissingSample.
Inductive Outcome : Type := Updated | Failed (e : Error).

(** Modelled from the spec: [update(value, history, dt)] of section 4.3.
    It returns the outcome with the value and the history as the call
    leaves them. *)
Definition update (ts : TimeStepper) (u : Vars) (history : History) (dt : Z)
  : Outcome * (Vars * History) :=
  if decide (dt = 0%Z) then (Failed ZeroStep, (u, history))
  else if decide (consistent ts history) then
    if decide (sample_missing ts history) then
      (Failed MissingSample, (u, history))
    else
      let t := (current_time history + dt)%Z in
      let u' := weighted_combination ts u (entries history) dt in
      let sample := {| time := t; value := u';
                       derivative := derivative_at ts t u' |} in
      (Updated,
       (u', {| start := start history;
               entries := trim (order ts) (entries history ++ [sample]);
               taken := S (taken history) |}))
  else (Failed InconsistentHistory, (u, history)).

(** Modelled from the spec: the [void update_u(u, history, time_step)]
    that UpdateU calls, as the [update] of section 4.3: the variables and
    the history as [update] leaves them. *)
Definition update_u (ts : TimeStepper) (u : Vars) (history : History) (dt : Z)
  : Vars * History :=
  (update ts u history dt).2.





(** [n] update calls in a row, every one of them successful. *)
Fixpoint updates (ts : TimeStepper) (u : Vars) (history : History)
    (steps : list Z) : option (Vars * History) :=
  match steps with
  | [] => Some (u, history)
  | dt :: steps' =>
      match update ts u history dt with
      | (Updated, (u', history')) => updates ts u' history' steps'
      | (Failed _, _) => None
      end
  end.

(** *** Trimming *)

Lemma length_trim k samples : length (trim k samples) = Nat.min k (length samples).
Proof. unfold trim. rewrite length_drop. lia. Qed.



(** *** What an update does *)

Lemma update_Updated ts u history dt u' history' :
  update ts u history dt = (Updated, (u', history')) →
  dt ≠ 0%Z ∧ consistent ts history ∧ ¬ sample_missing ts history
  ∧ u' = weighted_combination ts u (entries history) dt
  ∧ history' =
      {| start := start history;
         entries := trim (order ts)
           (entries history ++
              [{| time := (current_time history + dt)%Z;
                  value := u';
                  derivative :=
                    derivative_at ts (current_time history + dt)%Z u' |}]);
         taken := S (taken history) |}.
Proof.
  unfold update. repeat case_decide; intros Hup; inversion Hup; subst. done.
Qed.


(** The update of a consistent history, by a step that is not zero and
    with no sample missing, goes through. *)
Lemma update_succeeds ts u history dt :
  dt ≠ 0%Z → consistent ts history → ¬ sample_missing ts history →
  ∃ u' history', update ts u history dt = (Updated, (u', history')).
Proof.
  intros Hdt Hc Hm. unfold update.
  rewrite decide_False, decide_True, decide_False by done. eauto.
Qed.

(** *** Ordering *)

Lemma ordered_below_current history :
  ordered history → ∀ t, t ∈ times history → (t ≤ current_time history)%Z.
Proof.
  unfold ordered, current_time. intros Hs t Ht.
  destruct (last (times history)) as [newest|] eqn:Hlast; simpl.
  - apply last_Some in Hlast as [older Heq]. rewrite Heq in Hs, Ht.
    apply elem_of_app in Ht as [Ht|Ht].
    + eapply StronglySorted_app_1_elem_of; [exact Hs|exact Ht|by left].
    + apply list_elem_of_singleton in Ht. lia.
  - apply last_None in Hlast. rewrite Hlast in Ht. by apply elem_of_nil in Ht.
Qed.

Lemma update_ordered ts u history dt u' history' :
  (0 ≤ dt)%Z →
  update ts u history dt = (Updated, (u', history')) → ordered history'.
Proof.
  intros Hpos (Hdt & [Hord Hlen] & _ & _ & ->)%update_Updated.
  unfold ordered, times, trim. simpl. rewrite fmap_drop, fmap_app. simpl.
  set (n := length _ - order ts).
  assert (StronglySorted Z.le
            (times history ++ [(current_time history + dt)%Z])) as Hall.
  { apply StronglySorted_app_2.
    - intros t1 t2 Ht1 Ht2%list_elem_of_singleton.
      pose proof (ordered_below_current history Hord t1 Ht1). lia.
    - exact Hord.
    - repeat constructor. }
  unfold times in Hall. rewrite <- (take_drop n) in Hall.
  by apply StronglySorted_app_1_r in Hall.
Qed.


(** *** Counting *)

(** What holds of every history that updates have built: the invariant
    of section 3 and the postcondition of section 4.3. *)
Definition built (ts : TimeStepper) (history : History) : Prop :=
  ordered history
  ∧ length (entries history) = Nat.min (order ts) (taken history).

Lemma built_consistent ts history :
  built ts history → consistent ts history ∧ ¬ sample_missing ts history.
Proof.
  intros [Hord Hlen]. unfold consistent, sample_missing, in_ramp_up.
  split; [split; [done|lia]|]. lia.
Qed.

Lemma update_built ts u history dt u' history' :
  (0 ≤ dt)%Z →
  built ts history →
  update ts u history dt = (Updated, (u', history')) → built ts history'.
Proof.
  intros Hpos [Hord Hlen] Hup. split; [by eapply update_ordered|].
  apply update_Updated in Hup as (_ & _ & _ & _ & ->). simpl.
  rewrite length_trim, length_app. simpl. lia.
Qed.

Lemma updates_length ts steps : ∀ u history u' history',
  length (entries history) ≤ order ts →
  updates ts u history steps = Some (u', history') →
  length (entries history')
  = Nat.min (order ts) (length (entries history) + length steps)
  ∧ taken history' = taken history + length steps.
Proof.
  induction steps as [|dt steps IH]; intros u history u' history' Hle; simpl.
  - intros [= <- <-]. lia.
  - destruct (update ts u history dt) as [[|e] [u1 history1]] eqn:Hup; [|done].
    intros Hrest.
    apply update_Updated in Hup as (_ & _ & _ & _ & ->).
    apply IH in Hrest; simpl in *.
    + rewrite length_trim, length_app in Hrest. simpl in Hrest. lia.
    + rewrite length_trim. lia.
Qed.

(** From an empty history, forward steps all go through. *)
Lemma updates_succeed ts steps : ∀ u history,
  built ts history → Forall (λ dt, (0 < dt)%Z) steps →
  ∃ u' history', updates ts u history steps = Some (u', history')
                 ∧ built ts history'.
Proof.
  induction steps as [|dt steps IH]; intros u history Hb Hsteps; simpl.
  - eauto.
  - apply Forall_cons in Hsteps as [Hdt Hsteps].
    destruct (built_consistent ts history Hb) as [Hc Hm].
    destruct (update_succeeds ts u history dt ltac:(lia) Hc Hm)
      as (u1 & h1 & Hup).
    rewrite Hup. apply IH; [|done]. eapply update_built; [|done..]. lia.
Qed.

Lemma empty_history_built ts t0 : built ts (empty_history t0).
Proof. split; [constructor|]. simpl. lia. Qed.

(** C1. For a k-step time stepper, after every sequence of n successful
    update calls that starts from an empty history, the length of the
    history is exactly min(k, n): exactly k when n >= k, and exactly n
    when n < k. *)
Theorem history_length_after_updates (ts : TimeStepper) (u : Vars) (t0 : Z)
    (steps : list Z) (u' : Vars) (history' : History) :
  updates ts u (empty_history t0) steps = Some (u', history') →
  length (entries history') = Nat.min (order ts) (length steps)
  ∧ (order ts ≤ length steps → length (entries history') = order ts)
  ∧ (length steps < order ts → length (entries history') = length steps).
Proof.
  intros Hrun. apply updates_length in Hrun as [Hlen _]; simpl in *; lia.
Qed.

(** An update by a negative step goes through like any other, and puts
    the new sample below the newest entry that it keeps. *)
Lemma update_backwards ts u history dt u' history' newest :
  (dt < 0)%Z → 2 ≤ order ts → last (entries history) = Some newest →
  update ts u history dt = (Updated, (u', history')) →
  ¬ ordered history'.
Proof.
  intros Hneg Hk Hlast (_ & _ & _ & _ & ->)%update_Updated.
  apply last_Some in Hlast as [older Hentries].
  assert (current_time history = time newest) as Hcur.
  { unfold current_time, times. rewrite Hentries, fmap_app. simpl.
    by rewrite last_snoc. }
  unfold ordered, times, trim. cbn [entries]. rewrite Hcur, Hentries.
  rewrite <- (assoc_L (++)). simpl.
  rewrite length_app. simpl.
  rewrite drop_app_le by lia. rewrite fmap_app. simpl.
  intros Hsorted. apply StronglySorted_app_1_r in Hsorted.
  apply StronglySorted_cons in Hsorted as [Hall _].
  apply Forall_cons in Hall as [Hle _]. lia.
Qed.


End TimeStepper.

Arguments Sample : clear implicits.
Arguments History : clear implicits.
Arguments TimeStepper : clear implicits.

(** A two-step stepper on integers for the system du/dt = 4,
    self-starting: with no derivative in the history it takes a forward
    Euler step on the derivative of the system, with one a forward Euler
    step on the stored one, with two the two-step Adams-Bashforth
    combination. *)
Definition two_step : TimeStepper Z :=
  {| order := 2;
     weighted_combination := λ u samples dt,
       match reverse samples with
       | [] => (u + dt * 4)%Z
       | [s1] => (u + dt * derivative s1)%Z
       | s1 :: s0 :: _ =>
           (u + dt * (3 * derivative s1 - derivative s0) / 2)%Z
       end;
     derivative_at := λ _ _, 4%Z;
     interpolate := λ samples t',
       default 0%Z (value <$> last (filter (λ s, (time s ≤ t')%Z) samples)) |}.

Example two_step_three_updates :
  updates two_step 7%Z (empty_history 0) [2; 2; 3]%Z
  = Some (35%Z,
          {| start := 0;
             entries := [ {| time := 4; value := 23%Z; derivative := 4%Z |};
                          {| time := 7; value := 35%Z; derivative := 4%Z |} ];
             taken := 3 |}).
Proof. by vm_compute. Qed.

(** The scenario of section 8: from one known sample (t0, u0, du0), a
    self-starting step and a step at full order; the history has length 2
    and u is u0 + 4 * (t - t0). *)
Example two_step_from_one_sample :
  updates two_step 7%Z
    {| start := 0;
       entries := [ {| time := 0; value := 7%Z; derivative := 4%Z |} ];
       taken := 1 |}
    [2; 2]%Z
  = Some ((7 + 4 * 4)%Z,
          {| start := 0;
             entries := [ {| time := 2; value := 15%Z; derivative := 4%Z |};
                          {| time := 4; value := 23%Z; derivative := 4%Z |} ];
             taken := 3 |}).
Proof. by vm_compute. Qed.

Example two_step_zero_step :
  update two_step 7%Z (empty_history 0) 0%Z
  = (Failed ZeroStep, (7%Z, empty_history 0)).
Proof. by vm_compute. Qed.

(** Three updates (n >= k) and one update (n < k) from the empty
    history. *)
Definition after_three_updates : Z * History Z :=
  default (7%Z, empty_history 0)
    (updates two_step 7%Z (empty_history 0) [2; 2; 3]%Z).

Definition after_one_update : Z * History Z :=
  default (7%Z, empty_history 0)
    (updates two_step 7%Z (empty_history 0) [3]%Z).

Lemma history_length_after_updates_witness :
  (updates two_step 7%Z (empty_history 0) [2; 2; 3]%Z
   = Some after_three_updates
   ∧ length (entries after_three_updates.2) = 2)
  ∧ (updates two_step 7%Z (empty_history 0) [3]%Z = Some after_one_update
     ∧ length (entries after_one_update.2) = 1).
Proof.
  assert (updates two_step 7%Z (empty_history 0) [2; 2; 3]%Z
          = Some (after_three_updates.1, after_three_updates.2)) as H3
    by (by vm_compute).
  assert (updates two_step 7%Z (empty_history 0) [3]%Z
          = Some (after_one_update.1, after_one_update.2)) as H1
    by (by vm_compute).
  split; (split; [by vm_compute|]).
  - exact (proj1 (history_length_after_updates two_step 7%Z 0%Z [2; 2; 3]%Z
                    after_three_updates.1 after_three_updates.2 H3)).
  - exact (proj1 (history_length_after_updates two_step 7%Z 0%Z [3]%Z
                    after_one_update.1 after_one_update.2 H1)).
Defined.

(** The history after the first two of these updates. *)
Definition two_samples : History Z :=
  (default (7%Z, empty_history 0)
     (updates two_step 7%Z (empty_history 0) [2; 2]%Z)).2.

Example two_samples_times : times two_samples = [2; 4]%Z.
Proof. by vm_compute. Qed.



End TimeSteppers.

(** ** Actions::UpdateU *)

Module Actions.
Module UpdateU.
Section apply.

(** Types that other files declare: the items of the evolved variables,
    of their history and of the time step ([db::item_type] of the three
    tags), the time stepper that the cache holds, the inboxes and the
    array index.  The [ActionList] and [ParallelComponent] arguments of
    [apply] are unnamed and carry no value. *)
Variables (Vars History TimeDelta TimeStepper Other : Type).
Variables (Inboxes ArrayIndex : Type).

(** [TimeStepper::update_u(vars, history, time_step)]: a [void] method
    that works on the two objects it is handed. *)
Variable update_u : TimeStepper → Vars → History → TimeDelta → Vars * History.

(** What a tag of the DataBox can hold. *)
Inductive Item : Type :=
| ItemVariables (vars : Vars)
| ItemHistory (history : History)
| ItemTimeDelta (time_step : TimeDelta)
| ItemOther (x : Other).

Record System : Type := { variables_tag : Tag }.
Record Metavariables : Type := { system : System }.

(** [Parallel::ConstGlobalCache<Metavariables>], read with
    [Parallel::get<Tags::TimeStepperBase>]. *)
Record ConstGlobalCache : Type := { Tags_TimeStepperBase : TimeStepper }.

Definition is_same_v (T U : Tag) : bool := bool_decide (T = U).
Definition conditional_t (b : bool) (T F : Tag) : Tag := if b then T else F.
Definition add_tag_prefix (prefix : Tag → Tag) (tag : Tag) : Tag := prefix tag.

(** The three aliases at the head of [apply], as functions of the two
    template arguments they depend on. *)
Definition variables_tag_of (VariablesTag : Tag) (metavariables : Metavariables)
  : Tag :=
  conditional_t (is_same_v VariablesTag NoSuchType)
                (variables_tag (system metavariables))
                VariablesTag.

Definition dt_variables_tag_of (VariablesTag : Tag)
    (metavariables : Metavariables) : Tag :=
  add_tag_prefix Tags_dt (variables_tag_of VariablesTag metavariables).

Definition history_tag_of (VariablesTag : Tag) (metavariables : Metavariables)
  : Tag :=
  Tags_HistoryEvolvedVariables (variables_tag_of VariablesTag metavariables)
                               (dt_variables_tag_of VariablesTag metavariables).

(** The lambda handed to [db::mutate]; it captures the cache.  [None]
    when the items are not of the types that the lambda declares. *)
Definition invokable (cache : ConstGlobalCache) (items : list Item)
    (time_step : Item) : option (list Item) :=
  match items, time_step with
  | [ItemVariables vars; ItemHistory history], ItemTimeDelta time_step =>
      let time_stepper := Tags_TimeStepperBase cache in
      let '(vars, history) := update_u time_stepper vars history time_step in
      Some [ItemVariables vars; ItemHistory history]
  | _, _ => None
  end.

(** [UpdateU<VariablesTag>::apply].  The result is the tuple that is
    returned, which holds the Box and nothing else, with the two
    arguments taken by reference (the Box and the inboxes) as the call
    leaves them; [None] is the instantiation that does not compile. *)
Definition apply (VariablesTag : Tag) (metavariables : Metavariables)
    (box : db.DataBox Item) (inboxes : Inboxes) (cache : ConstGlobalCache)
    (array_index : ArrayIndex)
  : option (db.DataBox Item * (db.DataBox Item * Inboxes)) :=
  let variables_tag :=
    conditional_t (is_same_v VariablesTag NoSuchType)
                  (variables_tag (system metavariables))
                  VariablesTag in
  let dt_variables_tag := add_tag_prefix Tags_dt variables_tag in
  let history_tag :=
    Tags_HistoryEvolvedVariables variables_tag dt_variables_tag in
  let '(time_step, box) := db.get Tags_TimeStep box in
  match time_step with
  | Some time_step =>
      match db.mutate [variables_tag; history_tag] (invokable cache)
                      time_step box with
      | Some box => Some (box, (box, inboxes))
      | None => None
      end
  | None => None
  end.

(** Modelled from the spec: the scheduling directives of section 4.2. *)
Inductive Directive : Type :=
| Continue
| SuspendOnPhase (phase : string)
| Halt
| Goto (index : nat).

(** Modelled from the spec: UpdateU under the action contract of section
    4.2 (Box, Inbox and directive out).  The tuple that [apply] returns
    has no element besides the Box, so there is nothing to ask the
    scheduler for: the directive is [Continue]. *)
Definition action (VariablesTag : Tag) (metavariables : Metavariables)
    (box : db.DataBox Item) (inboxes : Inboxes) (cache : ConstGlobalCache)
    (array_index : ArrayIndex)
  : option (db.DataBox Item * Inboxes * Directive) :=
  match apply VariablesTag metavariables box inboxes cache array_index with
  | Some (returned, (_, inboxes)) => Some (returned, inboxes, Continue)
  | None => None
  end.

(** *** The tag aliases *)

Lemma variables_tag_of_NoSuchType metavariables :
  variables_tag_of NoSuchType metavariables
  = variables_tag (system metavariables).
Proof. reflexivity. Qed.

Lemma variables_tag_of_given VariablesTag metavariables :
  VariablesTag ≠ NoSuchType →
  variables_tag_of VariablesTag metavariables = VariablesTag.
Proof.
  intros Hne. unfold variables_tag_of, is_same_v.
  by rewrite bool_decide_eq_false_2.
Qed.

Lemma variables_tag_of_system metavariables :
  variables_tag_of (variables_tag (system metavariables)) metavariables
  = variables_tag_of NoSuchType metavariables.
Proof.
  rewrite variables_tag_of_NoSuchType.
  unfold variables_tag_of, is_same_v, conditional_t. by case_bool_decide.
Qed.

(** *** What apply returns *)

Lemma apply_aliases VariablesTag metavariables box inboxes cache array_index :
  apply VariablesTag metavariables box inboxes cache array_index
  = match (db.get Tags_TimeStep box).1 with
    | Some time_step =>
        match db.mutate [variables_tag_of VariablesTag metavariables;
                         history_tag_of VariablesTag metavariables]
                        (invokable cache) time_step
                        (db.get Tags_TimeStep box).2 with
        | Some box' => Some (box', (box', inboxes))
        | None => None
        end
    | None => None
    end.
Proof. unfold apply. by destruct (db.get Tags_TimeStep box). Qed.

Lemma apply_Some VariablesTag metavariables box inboxes cache array_index
    returned box' inboxes' :
  apply VariablesTag metavariables box inboxes cache array_index
  = Some (returned, (box', inboxes')) →
  ∃ time_step,
    (db.get Tags_TimeStep box).1 = Some time_step
    ∧ db.mutate [variables_tag_of VariablesTag metavariables;
                 history_tag_of VariablesTag metavariables]
                (invokable cache) time_step (db.get Tags_TimeStep box).2
      = Some box'
    ∧ returned = box' ∧ inboxes' = inboxes.
Proof.
  unfold apply. destruct (db.get Tags_TimeStep box) as [[time_step|] box1];
    [|done].
  destruct (db.mutate _ _ _ _) as [box2|] eqn:Hmut; [|done].
  intros [= <- <- <-]. eauto.
Qed.

(** UpdateU keeps a Box well formed and its memoized values sound. *)
Lemma apply_ok VariablesTag metavariables box inboxes cache array_index
    returned box' inboxes' :
  db.box_ok box →
  apply VariablesTag metavariables box inboxes cache array_index
  = Some (returned, (box', inboxes')) →
  db.box_ok box'.
Proof.
  intros Hok (time_step & _ & Hmut & _ & _)%apply_Some.
  eapply db.mutate_ok; [exact Hmut|]. by apply db.get_value.
Qed.

(** C8. The result of UpdateU does not depend on the inboxes or on the
    array index: two calls on the same Box and cache return equal Boxes
    and leave equal Boxes behind, whatever the inboxes and the indices
    are.  UpdateU consumes and produces no Inbox entry (the inboxes are
    left as they were), the Box that it returns is the Box that it was
    given, as the update left it, and it never asks to be suspended: its
    directive is Continue. *)
Theorem UpdateU_ignores_inboxes_and_index (VariablesTag : Tag)
    (metavariables : Metavariables) (box : db.DataBox Item)
    (cache : ConstGlobalCache) (inboxes1 inboxes2 : Inboxes)
    (array_index1 array_index2 : ArrayIndex) :
  (fst <$> apply VariablesTag metavariables box inboxes1 cache array_index1
   = fst <$> apply VariablesTag metavariables box inboxes2 cache array_index2)
  ∧ ((λ r, r.2.1)
       <$> apply VariablesTag metavariables box inboxes1 cache array_index1
     = (λ r, r.2.1)
       <$> apply VariablesTag metavariables box inboxes2 cache array_index2)
  ∧ (∀ returned box' inboxes',
       apply VariablesTag metavariables box inboxes1 cache array_index1
       = Some (returned, (box', inboxes')) →
       returned = box' ∧ inboxes' = inboxes1)
  ∧ (∀ returned inboxes' directive,
       action VariablesTag metavariables box inboxes1 cache array_index1
       = Some (returned, inboxes', directive) →
       directive = Continue ∧ inboxes' = inboxes1).
Proof.
  split; [|split; [|split]].
  - unfold apply. destruct (db.get Tags_TimeStep box) as [[time_step|] box1];
      [|done].
    by destruct (db.mutate _ _ _ _).
  - unfold apply. destruct (db.get Tags_TimeStep box) as [[time_step|] box1];
      [|done].
    by destruct (db.mutate _ _ _ _).
  - intros returned box' inboxes' Happly.
    by apply apply_Some in Happly as (_ & _ & _ & -> & ->).
  - unfold action. intros returned inboxes' directive.
    destruct (apply _ _ _ _ _ _) as [[r [b i]]|] eqn:Happly; [|done].
    intros [= <- <- <-].
    by apply apply_Some in Happly as (_ & _ & _ & _ & ->).
Qed.

(** C9. UpdateU instantiated with no variables tag (the NoSuchType
    default) behaves as UpdateU instantiated with the
    [system::variables_tag] of the metavariables: on every Box, inboxes
    and cache the two give equal results. *)
Theorem UpdateU_default_is_system_variables_tag
    (metavariables : Metavariables) (box : db.DataBox Item)
    (inboxes : Inboxes) (cache : ConstGlobalCache) (array_index : ArrayIndex) :
  apply NoSuchType metavariables box inboxes cache array_index
  = apply (variables_tag (system metavariables)) metavariables
          box inboxes cache array_index
  ∧ action NoSuchType metavariables box inboxes cache array_index
    = action (variables_tag (system metavariables)) metavariables
             box inboxes cache array_index.
Proof.
  assert (apply NoSuchType metavariables box inboxes cache array_index
          = apply (variables_tag (system metavariables)) metavariables
                  box inboxes cache array_index) as Heq.
  { rewrite !apply_aliases. unfold history_tag_of, dt_variables_tag_of.
    by rewrite variables_tag_of_system. }
  split; [exact Heq|]. unfold action. by rewrite Heq.
Qed.

(** C2, as amended. UpdateU writes the stored values of the variables tag
    and of its history tag and of no other tag: it adds no tag and
    removes no tag (the stored tags and the declared derived tags are the
    same before and after), every other stored tag, Tags::TimeStep
    included, keeps its value, and in a well-formed Box every tag that
    does not depend, directly or through derived tags, on one of the two
    written tags reads as before.  A derived tag that has one of the two
    among its prerequisites is left with its dirty flag up: its next read
    computes it anew. *)
Theorem UpdateU_modifies_only_its_tags (VariablesTag : Tag)
    (metavariables : Metavariables) (box : db.DataBox Item)
    (inboxes : Inboxes) (cache : ConstGlobalCache) (array_index : ArrayIndex)
    (returned box' : db.DataBox Item) (inboxes' : Inboxes) :
  apply VariablesTag metavariables box inboxes cache array_index
  = Some (returned, (box', inboxes')) →
  dom (db.stored box') = dom (db.stored box)
  ∧ db.derived box' = db.derived box
  ∧ (∀ t, t ≠ variables_tag_of VariablesTag metavariables →
          t ≠ history_tag_of VariablesTag metavariables →
          db.stored box' !! t = db.stored box !! t)
  ∧ (db.box_ok box →
     ∀ t, t ∉ db.affected (db.derived box)
                [variables_tag_of VariablesTag metavariables;
                 history_tag_of VariablesTag metavariables] →
          (db.get t box').1 = (db.get t box).1)
  ∧ (∀ d p, d ∈ db.derived box → p ∈ db.prerequisites d →
            p ∈ [variables_tag_of VariablesTag metavariables;
                 history_tag_of VariablesTag metavariables] →
            db.dirty box' (db.derived_tag d)).
Proof.
  intros (time_step & Hts & Hmut & -> & ->)%apply_Some.
  pose proof (db.get_frame Tags_TimeStep box) as [S1 D1 _ _ _].
  split; [|split; [|split; [|split]]].
  - by rewrite (db.mutate_dom _ _ _ _ _ Hmut), S1.
  - by rewrite (db.mutate_derived _ _ _ _ _ Hmut), D1.
  - intros t Hv Hh. rewrite (db.mutate_stored_ne _ _ _ _ _ Hmut), S1; [done|].
    intros [->|[->|?%elem_of_nil]%elem_of_cons]%elem_of_cons; done.
  - intros Hok t Ht.
    destruct (db.get_value Tags_TimeStep box Hok) as [_ Hok1].
    pose proof (db.mutate_ok _ _ _ _ _ Hmut Hok1) as Hok'.
    rewrite (proj1 (db.get_value t box' Hok')), (proj1 (db.get_value t box Hok)).
    rewrite (db.mutate_value_unaffected _ _ _ _ _ Hmut) by (by rewrite D1).
    unfold db.value_of. by rewrite S1, D1.
  - intros d p Hd Hp Hw. eapply (db.mutate_dirties _ _ _ _ _ Hmut); [|done..].
    by rewrite D1.
Qed.

(** *** The update that apply performs *)

(** The payload type of an item. *)
Inductive Kind : Type := VariablesKind | HistoryKind | TimeDeltaKind | OtherKind.

Definition kind_of (x : Item) : Kind :=
  match x with
  | ItemVariables _ => VariablesKind
  | ItemHistory _ => HistoryKind
  | ItemTimeDelta _ => TimeDeltaKind
  | ItemOther _ => OtherKind
  end.

(** [n] calls of [apply] in a row on the same Box. *)
Fixpoint applies (n : nat) (VariablesTag : Tag) (metavariables : Metavariables)
    (box : db.DataBox Item) (inboxes : Inboxes) (cache : ConstGlobalCache)
    (array_index : ArrayIndex) : option (db.DataBox Item) :=
  match n with
  | 0 => Some box
  | S n' =>
      match apply VariablesTag metavariables box inboxes cache array_index with
      | Some (box', _) =>
          applies n' VariablesTag metavariables box' inboxes cache array_index
      | None => None
      end
  end.

(** [n] calls of [update_u] in a row with the same time step. *)
Fixpoint update_u_times (n : nat) (time_stepper : TimeStepper) (vars : Vars)
    (history : History) (time_step : TimeDelta) : Vars * History :=
  match n with
  | 0 => (vars, history)
  | S n' =>
      let '(vars', history') := update_u time_stepper vars history time_step in
      update_u_times n' time_stepper vars' history' time_step
  end.

Lemma history_tag_of_ne_variables VariablesTag metavariables :
  variables_tag_of VariablesTag metavariables
  ≠ history_tag_of VariablesTag metavariables.
Proof. intros H. symmetry in H. by apply Tags_HistoryEvolvedVariables_ne in H. Qed.

Lemma history_tag_of_inj VariablesTag1 VariablesTag2 metavariables1 metavariables2 :
  history_tag_of VariablesTag1 metavariables1
  = history_tag_of VariablesTag2 metavariables2 →
  variables_tag_of VariablesTag1 metavariables1
  = variables_tag_of VariablesTag2 metavariables2.
Proof. unfold history_tag_of. by intros [= ? _]. Qed.

(** What the invokable accepts. *)
Lemma invokable_Some cache items time_step new :
  invokable cache items time_step = Some new →
  ∃ vars history dt,
    items = [ItemVariables vars; ItemHistory history]
    ∧ time_step = ItemTimeDelta dt
    ∧ new = [ItemVariables
               (update_u (Tags_TimeStepperBase cache) vars history dt).1;
             ItemHistory
               (update_u (Tags_TimeStepperBase cache) vars history dt).2].
Proof.
  unfold invokable.
  destruct items as [|[vars| | |] [|[|history| |] [|? ?]]]; try done.
  destruct time_step as [| |dt|]; try done.
  destruct (update_u _ vars history dt) as [vars' history'] eqn:Hu.
  intros [= <-]. exists vars, history, dt. by rewrite Hu.
Qed.

(** The Box that [apply] leaves, item by item. *)
Lemma apply_result VariablesTag metavariables box inboxes cache array_index
    vars history time_step :
  (db.get Tags_TimeStep box).1 = Some (ItemTimeDelta time_step) →
  db.stored box !! variables_tag_of VariablesTag metavariables
  = Some (ItemVariables vars) →
  db.stored box !! history_tag_of VariablesTag metavariables
  = Some (ItemHistory history) →
  apply VariablesTag metavariables box inboxes cache array_index
  = Some
      (let box' :=
         {| db.stored :=
              <[variables_tag_of VariablesTag metavariables :=
                  ItemVariables
                    (update_u (Tags_TimeStepperBase cache)
                              vars history time_step).1]>
                (<[history_tag_of VariablesTag metavariables :=
                     ItemHistory
                       (update_u (Tags_TimeStepperBase cache)
                                 vars history time_step).2]>
                   (db.stored box));
            db.derived := db.derived box;
            db.memo :=
              db.invalidate
                (db.affected (db.derived box)
                   [variables_tag_of VariablesTag metavariables;
                    history_tag_of VariablesTag metavariables])
                (db.memo (db.get Tags_TimeStep box).2);
            db.computed := db.computed (db.get Tags_TimeStep box).2 |} in
       (box', (box', inboxes))).
Proof.
  intros Hts Hv Hh. rewrite apply_aliases, Hts.
  pose proof (db.get_frame Tags_TimeStep box) as [S1 D1 _ _ _].
  unfold db.mutate. simpl. rewrite S1, Hv, Hh. simpl.
  destruct (update_u _ vars history time_step) as [vars' history']. simpl.
  by rewrite D1.
Qed.

(** What a call that compiles has found in the Box. *)
Lemma apply_Some_found VariablesTag metavariables box inboxes cache array_index
    returned box' inboxes' :
  apply VariablesTag metavariables box inboxes cache array_index
  = Some (returned, (box', inboxes')) →
  ∃ vars history time_step,
    (db.get Tags_TimeStep box).1 = Some (ItemTimeDelta time_step)
    ∧ db.stored box !! variables_tag_of VariablesTag metavariables
      = Some (ItemVariables vars)
    ∧ db.stored box !! history_tag_of VariablesTag metavariables
      = Some (ItemHistory history).
Proof.
  intros (item & Hts & Hmut & _ & _)%apply_Some.
  destruct (db.mutate_Some _ _ _ _ _ Hmut) as (current & new & Hcur & Hinv & _).
  apply invokable_Some in Hinv as (vars & history & dt & -> & -> & _).
  pose proof (db.get_frame Tags_TimeStep box) as [S1 _ _ _ _].
  rewrite S1 in Hcur. simpl in Hcur.
  destruct (db.stored box !! variables_tag_of VariablesTag metavariables)
    as [x|] eqn:Hx; [|done].
  destruct (db.stored box !! history_tag_of VariablesTag metavariables)
    as [y|] eqn:Hy; [|done].
  simpl in Hcur. injection Hcur as -> ->. by exists vars, history, dt.
Qed.

(** The Box that a call leaves when Tags::TimeStep is a stored tag. *)
Definition updated (VariablesTag : Tag) (metavariables : Metavariables)
    (cache : ConstGlobalCache) (vars : Vars) (history : History)
    (time_step : TimeDelta) (box : db.DataBox Item) : db.DataBox Item :=
  {| db.stored :=
       <[variables_tag_of VariablesTag metavariables :=
           ItemVariables
             (update_u (Tags_TimeStepperBase cache) vars history time_step).1]>
         (<[history_tag_of VariablesTag metavariables :=
              ItemHistory
                (update_u (Tags_TimeStepperBase cache)
                          vars history time_step).2]>
            (db.stored box));
     db.derived := db.derived box;
     db.memo :=
       db.invalidate
         (db.affected (db.derived box)
            [variables_tag_of VariablesTag metavariables;
             history_tag_of VariablesTag metavariables])
         (db.memo box);
     db.computed := db.computed box |}.

Lemma apply_updated VariablesTag metavariables box inboxes cache array_index
    vars history time_step :
  Tags_TimeStep ∉ db.derived_tags (db.derived box) →
  db.stored box !! Tags_TimeStep = Some (ItemTimeDelta time_step) →
  db.stored box !! variables_tag_of VariablesTag metavariables
  = Some (ItemVariables vars) →
  db.stored box !! history_tag_of VariablesTag metavariables
  = Some (ItemHistory history) →
  apply VariablesTag metavariables box inboxes cache array_index
  = Some (updated VariablesTag metavariables cache vars history time_step box,
          (updated VariablesTag metavariables cache vars history time_step box,
           inboxes)).
Proof.
  intros Hnd Hts Hv Hh.
  assert (db.get Tags_TimeStep box = (Some (ItemTimeDelta time_step), box))
    as Hget.
  { unfold db.get. by rewrite db.get_in_not_derived, Hts. }
  rewrite (apply_result _ _ _ _ _ _ vars history time_step); try done.
  - by rewrite Hget.
  - by rewrite Hget.
Qed.

(** X1. On a Box that holds the evolved variables under the variables
    tag, their history under the history tag and a time step under
    Tags::TimeStep, [apply] compiles, and the Box it returns holds under
    the two tags exactly what [update_u] of the cache's time stepper
    returns for the old variables, the old history and the time step. *)
Theorem UpdateU_stores_what_update_u_returns (VariablesTag : Tag)
    (metavariables : Metavariables) (box : db.DataBox Item)
    (inboxes : Inboxes) (cache : ConstGlobalCache) (array_index : ArrayIndex)
    (vars : Vars) (history : History) (time_step : TimeDelta) :
  (db.get Tags_TimeStep box).1 = Some (ItemTimeDelta time_step) →
  db.stored box !! variables_tag_of VariablesTag metavariables
  = Some (ItemVariables vars) →
  db.stored box !! history_tag_of VariablesTag metavariables
  = Some (ItemHistory history) →
  ∃ box',
    apply VariablesTag metavariables box inboxes cache array_index
    = Some (box', (box', inboxes))
    ∧ db.stored box' !! variables_tag_of VariablesTag metavariables
      = Some (ItemVariables
                (update_u (Tags_TimeStepperBase cache)
                          vars history time_step).1)
    ∧ db.stored box' !! history_tag_of VariablesTag metavariables
      = Some (ItemHistory
                (update_u (Tags_TimeStepperBase cache)
                          vars history time_step).2).
Proof.
  intros Hts Hv Hh.
  rewrite (apply_result _ _ _ _ _ _ vars history time_step) by done.
  eexists. split; [reflexivity|]. simpl. split.
  - by rewrite lookup_insert_eq.
  - rewrite lookup_insert_ne by apply history_tag_of_ne_variables.
    by rewrite lookup_insert_eq.
Qed.

(** X2. [apply] compiles exactly when the Box holds a time step under
    Tags::TimeStep, variables under the variables tag and a history under
    the history tag: with one of the three missing, or holding an item of
    another type, there is no result. *)
Theorem UpdateU_compiles_iff_items_present (VariablesTag : Tag)
    (metavariables : Metavariables) (box : db.DataBox Item)
    (inboxes : Inboxes) (cache : ConstGlobalCache) (array_index : ArrayIndex) :
  is_Some (apply VariablesTag metavariables box inboxes cache array_index)
  ↔ ∃ vars history time_step,
      (db.get Tags_TimeStep box).1 = Some (ItemTimeDelta time_step)
      ∧ db.stored box !! variables_tag_of VariablesTag metavariables
        = Some (ItemVariables vars)
      ∧ db.stored box !! history_tag_of VariablesTag metavariables
        = Some (ItemHistory history).
Proof.
  split.
  - intros [[returned [box' inboxes']] Happly]. by eapply apply_Some_found.
  - intros (vars & history & time_step & Hts & Hv & Hh).
    by rewrite (apply_result _ _ _ _ _ _ vars history time_step).
Qed.

(** X3. With a variables tag given, the metavariables play no part:
    [UpdateU<VariablesTag>] gives the same result whatever
    [system::variables_tag] the metavariables declare. *)
Theorem UpdateU_given_tag_ignores_system (VariablesTag : Tag)
    (metavariables1 metavariables2 : Metavariables) (box : db.DataBox Item)
    (inboxes : Inboxes) (cache : ConstGlobalCache) (array_index : ArrayIndex) :
  VariablesTag ≠ NoSuchType →
  apply VariablesTag metavariables1 box inboxes cache array_index
  = apply VariablesTag metavariables2 box inboxes cache array_index.
Proof.
  intros Hne. rewrite !apply_aliases.
  unfold history_tag_of, dt_variables_tag_of.
  by rewrite !variables_tag_of_given.
Qed.

(** X4. [apply] keeps the payload type of every stored tag, and an item
    that is neither variables nor a history, the time step that it reads
    among them, is left as it is under whatever tag it is stored. *)
Theorem UpdateU_keeps_payload_types (VariablesTag : Tag)
    (metavariables : Metavariables) (box : db.DataBox Item)
    (inboxes : Inboxes) (cache : ConstGlobalCache) (array_index : ArrayIndex)
    (returned box' : db.DataBox Item) (inboxes' : Inboxes) :
  apply VariablesTag metavariables box inboxes cache array_index
  = Some (returned, (box', inboxes')) →
  (∀ t, kind_of <$> db.stored box' !! t = kind_of <$> db.stored box !! t)
  ∧ (∀ t x, db.stored box !! t = Some x →
            kind_of x = TimeDeltaKind ∨ kind_of x = OtherKind →
            db.stored box' !! t = Some x).
Proof.
  intros Happly.
  destruct (apply_Some_found _ _ _ _ _ _ _ _ _ Happly)
    as (vars & history & time_step & Hts & Hv & Hh).
  rewrite (apply_result _ _ _ _ _ _ vars history time_step) in Happly by done.
  injection Happly as <- <- <-. simpl. split.
  - intros t. rewrite !lookup_insert.
    repeat case_decide; subst; by rewrite ?Hv, ?Hh.
  - intros t x Hx Hkind. rewrite !lookup_insert.
    repeat case_decide; subst; try done.
    + rewrite Hv in Hx. injection Hx as <-. by destruct Hkind.
    + rewrite Hh in Hx. injection Hx as <-. by destruct Hkind.
Qed.

(** X5. [n] calls of [apply] in a row, on a Box where Tags::TimeStep is a
    stored tag, all compile and leave under the variables tag and the
    history tag what [n] calls of [update_u] in a row, each with the same
    time step, make of the variables and the history; the time step is the
    one that was stored. *)
Theorem UpdateU_n_times (n : nat) (VariablesTag : Tag)
    (metavariables : Metavariables) (inboxes : Inboxes)
    (cache : ConstGlobalCache) (array_index : ArrayIndex)
    (time_step : TimeDelta) :
  ∀ (box : db.DataBox Item) (vars : Vars) (history : History),
  Tags_TimeStep ∉ db.derived_tags (db.derived box) →
  db.stored box !! Tags_TimeStep = Some (ItemTimeDelta time_step) →
  db.stored box !! variables_tag_of VariablesTag metavariables
  = Some (ItemVariables vars) →
  db.stored box !! history_tag_of VariablesTag metavariables
  = Some (ItemHistory history) →
  ∃ box',
    applies n VariablesTag metavariables box inboxes cache array_index
    = Some box'
    ∧ db.stored box' !! variables_tag_of VariablesTag metavariables
      = Some (ItemVariables
                (update_u_times n (Tags_TimeStepperBase cache)
                                vars history time_step).1)
    ∧ db.stored box' !! history_tag_of VariablesTag metavariables
      = Some (ItemHistory
                (update_u_times n (Tags_TimeStepperBase cache)
                                vars history time_step).2)
    ∧ db.stored box' !! Tags_TimeStep = Some (ItemTimeDelta time_step)
    ∧ db.derived box' = db.derived box.
Proof.
  induction n as [|n IH]; intros box vars history Hnd Hts Hv Hh; simpl.
  - eauto 10.
  - rewrite (apply_updated _ _ _ _ _ _ vars history time_step) by done.
    destruct (update_u (Tags_TimeStepperBase cache) vars history time_step)
      as [vars' history'] eqn:Hu.
    assert (variables_tag_of VariablesTag metavariables ≠ Tags_TimeStep)
      as Hvt by (intros Heq; rewrite Heq in Hv; congruence).
    destruct (IH (updated VariablesTag metavariables cache vars history
                          time_step box) vars' history')
      as (box' & Happlies & Hv' & Hh' & Hts' & Hd').
    + done.
    + simpl. by rewrite !lookup_insert_ne.
    + simpl. by rewrite lookup_insert_eq, Hu.
    + simpl. rewrite lookup_insert_ne by apply history_tag_of_ne_variables.
      by rewrite lookup_insert_eq, Hu.
    + exists box'. done.
Qed.

(** X6. When [update_u] hands the variables and the history back as they
    were (a time stepper that refuses the step and changes nothing),
    [apply] still returns the Box, every stored value in it is the one it
    was, and in a well-formed Box every tag reads as before. *)
Theorem UpdateU_of_an_idle_update_u (VariablesTag : Tag)
    (metavariables : Metavariables) (box : db.DataBox Item)
    (inboxes : Inboxes) (cache : ConstGlobalCache) (array_index : ArrayIndex)
    (vars : Vars) (history : History) (time_step : TimeDelta) :
  (db.get Tags_TimeStep box).1 = Some (ItemTimeDelta time_step) →
  db.stored box !! variables_tag_of VariablesTag metavariables
  = Some (ItemVariables vars) →
  db.stored box !! history_tag_of VariablesTag metavariables
  = Some (ItemHistory history) →
  update_u (Tags_TimeStepperBase cache) vars history time_step
  = (vars, history) →
  ∃ box',
    apply VariablesTag metavariables box inboxes cache array_index
    = Some (box', (box', inboxes))
    ∧ db.stored box' = db.stored box
    ∧ (db.box_ok box → ∀ t, (db.get t box').1 = (db.get t box).1).
Proof.
  intros Hts Hv Hh Hidle.
  pose proof (apply_result _ _ _ inboxes cache array_index _ _ _ Hts Hv Hh)
    as Happly.
  rewrite Hidle in Happly. simpl in Happly.
  rewrite (insert_id _ _ _ Hh), (insert_id _ _ _ Hv) in Happly.
  eexists. split; [exact Happly|]. split; [done|].
  intros Hok t.
  pose proof (apply_ok _ _ _ _ _ _ _ _ _ Hok Happly) as Hok'.
  rewrite (proj1 (db.get_value t _ Hok')), (proj1 (db.get_value t box Hok)).
  done.
Qed.

(** X7. Two instantiations for different evolved variables commute: on a
    Box that holds both sets of variables with their histories, and the
    time step as a stored tag, running one and then the other returns the
    same Box in either order. *)
Theorem UpdateU_of_two_variables_commute (VariablesTag1 VariablesTag2 : Tag)
    (metavariables : Metavariables) (box : db.DataBox Item)
    (inboxes : Inboxes) (cache : ConstGlobalCache) (array_index : ArrayIndex)
    (vars1 vars2 : Vars) (history1 history2 : History) (time_step : TimeDelta) :
  variables_tag_of VariablesTag1 metavariables
  ≠ variables_tag_of VariablesTag2 metavariables →
  Tags_TimeStep ∉ db.derived_tags (db.derived box) →
  db.stored box !! Tags_TimeStep = Some (ItemTimeDelta time_step) →
  db.stored box !! variables_tag_of VariablesTag1 metavariables
  = Some (ItemVariables vars1) →
  db.stored box !! history_tag_of VariablesTag1 metavariables
  = Some (ItemHistory history1) →
  db.stored box !! variables_tag_of VariablesTag2 metavariables
  = Some (ItemVariables vars2) →
  db.stored box !! history_tag_of VariablesTag2 metavariables
  = Some (ItemHistory history2) →
  ∃ box',
    (r ← apply VariablesTag1 metavariables box inboxes cache array_index;
     apply VariablesTag2 metavariables r.1 inboxes cache array_index)
    = Some (box', (box', inboxes))
    ∧ (r ← apply VariablesTag2 metavariables box inboxes cache array_index;
       apply VariablesTag1 metavariables r.1 inboxes cache array_index)
      = Some (box', (box', inboxes)).
Proof.
  intros Hne Hnd Hts Hv1 Hh1 Hv2 Hh2.
  set (vt1 := variables_tag_of VariablesTag1 metavariables) in *.
  set (vt2 := variables_tag_of VariablesTag2 metavariables) in *.
  set (ht1 := history_tag_of VariablesTag1 metavariables) in *.
  set (ht2 := history_tag_of VariablesTag2 metavariables) in *.
  assert (vt1 ≠ ht1) as Hvh1 by apply history_tag_of_ne_variables.
  assert (vt2 ≠ ht2) as Hvh2 by apply history_tag_of_ne_variables.
  assert (vt1 ≠ ht2) as H12 by (intros Heq; rewrite Heq in Hv1; congruence).
  assert (vt2 ≠ ht1) as H21 by (intros Heq; rewrite Heq in Hv2; congruence).
  assert (ht1 ≠ ht2) as Hhh by (intros Heq%history_tag_of_inj; done).
  assert (vt1 ≠ Tags_TimeStep) as Ht1
    by (intros Heq; rewrite Heq in Hv1; congruence).
  assert (vt2 ≠ Tags_TimeStep) as Ht2
    by (intros Heq; rewrite Heq in Hv2; congruence).
  rewrite (apply_updated VariablesTag1 _ _ _ _ _ vars1 history1 time_step)
    by done.
  rewrite (apply_updated VariablesTag2 _ _ _ _ _ vars2 history2 time_step)
    by done.
  simpl.
  rewrite (apply_updated VariablesTag2 _ _ _ _ _ vars2 history2 time_step);
    [| done | simpl; by rewrite !lookup_insert_ne
       | simpl; by rewrite !lookup_insert_ne
       | simpl; by rewrite !lookup_insert_ne ].
  rewrite (apply_updated VariablesTag1 _ _ _ _ _ vars1 history1 time_step);
    [| done | simpl; by rewrite !lookup_insert_ne
       | simpl; by rewrite !lookup_insert_ne
       | simpl; by rewrite !lookup_insert_ne ].
  eexists. split; [reflexivity|].
  do 2 f_equal.
  - unfold updated. simpl. f_equal.
    + apply map_eq. intros t. rewrite !lookup_insert.
      repeat case_decide; subst; done.
    + unfold db.invalidate. apply map_filter_comm.
  - f_equal. unfold updated. simpl. f_equal.
    + apply map_eq. intros t. rewrite !lookup_insert.
      repeat case_decide; subst; done.
    + unfold db.invalidate. apply map_filter_comm.
Qed.

End apply.

Arguments ItemVariables {Vars History TimeDelta Other} vars.
Arguments ItemHistory {Vars History TimeDelta Other} history.
Arguments ItemTimeDelta {Vars History TimeDelta Other} time_step.
Arguments ItemOther {Vars History TimeDelta Other} x.
Arguments Tags_TimeStepperBase {TimeStepper} c.
Arguments Build_ConstGlobalCache {TimeStepper} Tags_TimeStepperBase.
Arguments apply {Vars History TimeDelta TimeStepper Other Inboxes ArrayIndex}
  update_u VariablesTag metavariables box inboxes cache array_index.
Arguments action {Vars History TimeDelta TimeStepper Other Inboxes ArrayIndex}
  update_u VariablesTag metavariables box inboxes cache array_index.
Arguments kind_of {Vars History TimeDelta Other} x.
Arguments applies {Vars History TimeDelta TimeStepper Other Inboxes ArrayIndex}
  update_u n VariablesTag metavariables box inboxes cache array_index.
Arguments update_u_times {Vars History TimeDelta TimeStepper}
  update_u n time_stepper vars history time_step.

(** *** UpdateU on a Box of integers, with the two-step stepper *)

Definition U : Tag := Named "U".
Definition twice_U_tag : Tag := Named "2U".
Definition label_tag : Tag := Named "label".

Definition evolved : Metavariables := {| system := {| variables_tag := U |} |}.

Definition history_of_U : Tag := history_tag_of NoSuchType evolved.

(** The derived tag 2U, computed from the evolved variables. *)
Definition twice_U : db.Derived (Item Z (TimeSteppers.History Z) Z Z) :=
  {| db.derived_tag := twice_U_tag;
     db.prerequisites := [U];
     db.computation := λ items,
       match items with
       | [ItemVariables u] => ItemVariables (2 * u)%Z
       | _ => ItemOther 0%Z
       end |}.

Definition box0 : db.DataBox (Item Z (TimeSteppers.History Z) Z Z) :=
  db.create
    (<[U := ItemVariables 7%Z]>
       (<[history_of_U := ItemHistory (TimeSteppers.empty_history 0)]>
          (<[Tags_TimeStep := ItemTimeDelta 2%Z]>
             {[label_tag := ItemOther 99%Z]})))
    [twice_U].

Definition cache0 : ConstGlobalCache (TimeSteppers.TimeStepper Z) :=
  {| Tags_TimeStepperBase := TimeSteppers.two_step |}.

Definition UpdateU_box0
  : option (db.DataBox (Item Z (TimeSteppers.History Z) Z Z)
            * (db.DataBox (Item Z (TimeSteppers.History Z) Z Z) * list Z)) :=
  apply TimeSteppers.update_u NoSuchType evolved box0 [] cache0 0.

Definition box1 : db.DataBox (Item Z (TimeSteppers.History Z) Z Z) :=
  default box0 (fst <$> UpdateU_box0).

Lemma box0_ok : db.box_ok box0.
Proof.
  apply db.create_ok. simpl. split; [|split; [|split]]; [| |  |done].
  - by vm_compute.
  - intros Hin. by apply elem_of_nil in Hin.
  - apply Forall_cons. split; [|by apply Forall_nil]. left. by vm_compute.
Qed.

Example UpdateU_box0_returns : UpdateU_box0 = Some (box1, (box1, [])).
Proof. by vm_compute. Qed.

Example UpdateU_box0_stored :
  db.stored box1 !! U = Some (ItemVariables 15%Z)
  ∧ db.stored box1 !! Tags_TimeStep = Some (ItemTimeDelta 2%Z)
  ∧ db.stored box1 !! label_tag = Some (ItemOther 99%Z)
  ∧ db.stored box1 !! history_of_U
    = Some (ItemHistory
              {| TimeSteppers.start := 0;
                 TimeSteppers.entries :=
                   [ {| TimeSteppers.time := 2;
                        TimeSteppers.value := 15%Z;
                        TimeSteppers.derivative := 4%Z |} ];
                 TimeSteppers.taken := 1 |}).
Proof. by vm_compute. Qed.

(** Against C2 as it is stated: 2U is neither the variables tag nor its
    history tag, and UpdateU changes what it reads as, from 14 to 30. *)
Lemma UpdateU_changes_a_derived_value :
  db.box_ok box0
  ∧ UpdateU_box0 = Some (box1, (box1, []))
  ∧ twice_U_tag ≠ variables_tag_of NoSuchType evolved
  ∧ twice_U_tag ≠ history_tag_of NoSuchType evolved
  ∧ (db.get twice_U_tag box0).1 = Some (ItemVariables 14%Z)
  ∧ (db.get twice_U_tag box1).1 = Some (ItemVariables 30%Z)
  ∧ ¬ (∀ t, t ≠ variables_tag_of NoSuchType evolved →
            t ≠ history_tag_of NoSuchType evolved →
            (db.get t box1).1 = (db.get t box0).1).
Proof.
  split; [exact box0_ok|]. split; [by vm_compute|].
  split; [discriminate|]. split; [discriminate|].
  split; [by vm_compute|]. split; [by vm_compute|].
  intros Hsame. specialize (Hsame twice_U_tag). revert Hsame.
  vm_compute. intros Hsame.
  assert (Some (ItemVariables (Vars:=Z) (History:=TimeSteppers.History Z)
                  (TimeDelta:=Z) (Other:=Z) 30%Z)
          = Some (ItemVariables 14%Z)) as Habs by (apply Hsame; discriminate).
  discriminate.
Qed.

Lemma UpdateU_modifies_only_its_tags_witness :
  dom (db.stored box1) = dom (db.stored box0)
  ∧ db.derived box1 = db.derived box0
  ∧ (∀ t, t ≠ variables_tag_of NoSuchType evolved →
          t ≠ history_tag_of NoSuchType evolved →
          db.stored box1 !! t = db.stored box0 !! t)
  ∧ (db.box_ok box0 →
     ∀ t, t ∉ db.affected (db.derived box0)
                [variables_tag_of NoSuchType evolved;
                 history_tag_of NoSuchType evolved] →
          (db.get t box1).1 = (db.get t box0).1)
  ∧ (∀ d p, d ∈ db.derived box0 → p ∈ db.prerequisites d →
            p ∈ [variables_tag_of NoSuchType evolved;
                 history_tag_of NoSuchType evolved] →
            db.dirty box1 (db.derived_tag d)).
Proof.
  apply (UpdateU_modifies_only_its_tags
           Z (TimeSteppers.History Z) Z (TimeSteppers.TimeStepper Z) Z
           (list Z) nat
           TimeSteppers.update_u NoSuchType evolved box0 [] cache0 0 box1 box1 []).
  by vm_compute.
Defined.

(** *** The further properties of apply on Boxes of integers *)

Definition V : Tag := Named "V".
Definition history_of_V : Tag := history_tag_of V evolved.

(** Metavariables of another system, which evolves V. *)
Definition evolved_V : Metavariables := {| system := {| variables_tag := V |} |}.

(** [box0] with a time step of zero ticks, which [two_step] refuses. *)
Definition box_idle : db.DataBox (Item Z (TimeSteppers.History Z) Z Z) :=
  db.create
    (<[U := ItemVariables 7%Z]>
       (<[history_of_U := ItemHistory (TimeSteppers.empty_history 0)]>
          {[Tags_TimeStep := ItemTimeDelta 0%Z]}))
    [twice_U].

(** A Box with two sets of evolved variables, U and V. *)
Definition box_UV : db.DataBox (Item Z (TimeSteppers.History Z) Z Z) :=
  db.create
    (<[U := ItemVariables 7%Z]>
       (<[history_of_U := ItemHistory (TimeSteppers.empty_history 0)]>
          (<[V := ItemVariables 100%Z]>
             (<[history_of_V := ItemHistory (TimeSteppers.empty_history 5)]>
                {[Tags_TimeStep := ItemTimeDelta 2%Z]}))))
    [twice_U].

Lemma TimeStep_not_derived_in_twice_U :
  Tags_TimeStep ∉ db.derived_tags [twice_U].
Proof. intros Hin%list_elem_of_singleton. discriminate. Qed.

Example UpdateU_without_history_does_not_compile :
  apply TimeSteppers.update_u V evolved box0 ([] : list Z) cache0 0 = None.
Proof. by vm_compute. Qed.

Example UpdateU_three_times :
  (box' ← applies TimeSteppers.update_u 3 NoSuchType evolved box0
             ([] : list Z) cache0 0;
   db.stored box' !! U)
  = Some (ItemVariables 31%Z).
Proof. by vm_compute. Qed.

Lemma UpdateU_stores_what_update_u_returns_witness :
  ∃ box',
    apply TimeSteppers.update_u NoSuchType evolved box0 ([] : list Z) cache0 0
    = Some (box', (box', []))
    ∧ db.stored box' !! variables_tag_of NoSuchType evolved
      = Some (ItemVariables
                (TimeSteppers.update_u (Tags_TimeStepperBase cache0)
                   7%Z (TimeSteppers.empty_history 0) 2%Z).1)
    ∧ db.stored box' !! history_tag_of NoSuchType evolved
      = Some (ItemHistory
                (TimeSteppers.update_u (Tags_TimeStepperBase cache0)
                   7%Z (TimeSteppers.empty_history 0) 2%Z).2).
Proof.
  apply (UpdateU_stores_what_update_u_returns
           Z (TimeSteppers.History Z) Z (TimeSteppers.TimeStepper Z) Z
           (list Z) nat TimeSteppers.update_u NoSuchType evolved box0 [] cache0 0
           7%Z (TimeSteppers.empty_history 0) 2%Z); by vm_compute.
Defined.

Lemma UpdateU_given_tag_ignores_system_witness :
  U ≠ NoSuchType
  ∧ apply TimeSteppers.update_u U evolved box0 ([] : list Z) cache0 0
    = apply TimeSteppers.update_u U evolved_V box0 ([] : list Z) cache0 0.
Proof.
  assert (U ≠ NoSuchType) as Hne by discriminate.
  split; [exact Hne|].
  exact (UpdateU_given_tag_ignores_system
           Z (TimeSteppers.History Z) Z (TimeSteppers.TimeStepper Z) Z
           (list Z) nat TimeSteppers.update_u U evolved evolved_V box0 []
           cache0 0 Hne).
Defined.

Lemma UpdateU_keeps_payload_types_witness :
  (∀ t, kind_of <$> db.stored box1 !! t
        = kind_of <$> db.stored box0 !! t)
  ∧ (∀ t x, db.stored box0 !! t = Some x →
            kind_of x = TimeDeltaKind ∨ kind_of x = OtherKind →
            db.stored box1 !! t = Some x).
Proof.
  apply (UpdateU_keeps_payload_types
           Z (TimeSteppers.History Z) Z (TimeSteppers.TimeStepper Z) Z
           (list Z) nat TimeSteppers.update_u NoSuchType evolved box0 [] cache0 0
           box1 box1 []).
  by vm_compute.
Defined.

Lemma UpdateU_n_times_witness :
  ∃ box',
    applies TimeSteppers.update_u 3 NoSuchType evolved box0 ([] : list Z)
            cache0 0
    = Some box'
    ∧ db.stored box' !! variables_tag_of NoSuchType evolved
      = Some (ItemVariables
                (update_u_times TimeSteppers.update_u 3
                   (Tags_TimeStepperBase cache0)
                   7%Z (TimeSteppers.empty_history 0) 2%Z).1)
    ∧ db.stored box' !! history_tag_of NoSuchType evolved
      = Some (ItemHistory
                (update_u_times TimeSteppers.update_u 3
                   (Tags_TimeStepperBase cache0)
                   7%Z (TimeSteppers.empty_history 0) 2%Z).2)
    ∧ db.stored box' !! Tags_TimeStep = Some (ItemTimeDelta 2%Z)
    ∧ db.derived box' = db.derived box0.
Proof.
  apply (UpdateU_n_times
           Z (TimeSteppers.History Z) Z (TimeSteppers.TimeStepper Z) Z
           (list Z) nat TimeSteppers.update_u 3 NoSuchType evolved [] cache0 0
           2%Z box0 7%Z (TimeSteppers.empty_history 0)).
  - exact TimeStep_not_derived_in_twice_U.
  - by vm_compute.
  - by vm_compute.
  - by vm_compute.
Defined.

Lemma UpdateU_of_an_idle_update_u_witness :
  ∃ box',
    apply TimeSteppers.update_u NoSuchType evolved box_idle ([] : list Z)
          cache0 0
    = Some (box', (box', []))
    ∧ db.stored box' = db.stored box_idle
    ∧ (db.box_ok box_idle →
       ∀ t, (db.get t box').1 = (db.get t box_idle).1).
Proof.
  apply (UpdateU_of_an_idle_update_u
           Z (TimeSteppers.History Z) Z (TimeSteppers.TimeStepper Z) Z
           (list Z) nat TimeSteppers.update_u NoSuchType evolved box_idle []
           cache0 0 7%Z (TimeSteppers.empty_history 0) 0%Z); by vm_compute.
Defined.

Lemma UpdateU_of_two_variables_commute_witness :
  ∃ box',
    (r ← apply TimeSteppers.update_u NoSuchType evolved box_UV ([] : list Z)
               cache0 0;
     apply TimeSteppers.update_u V evolved r.1 ([] : list Z) cache0 0)
    = Some (box', (box', []))
    ∧ (r ← apply TimeSteppers.update_u V evolved box_UV ([] : list Z)
                 cache0 0;
       apply TimeSteppers.update_u NoSuchType evolved r.1 ([] : list Z)
             cache0 0)
      = Some (box', (box', [])).
Proof.
  apply (UpdateU_of_two_variables_commute
           Z (TimeSteppers.History Z) Z (TimeSteppers.TimeStepper Z) Z
           (list Z) nat TimeSteppers.update_u NoSuchType V evolved box_UV []
           cache0 0 7%Z 100%Z (TimeSteppers.empty_history 0)
           (TimeSteppers.empty_history 5) 2%Z).
  - discriminate.
  - exact TimeStep_not_derived_in_twice_U.
  - by vm_compute.
  - by vm_compute.
  - by vm_compute.
  - by vm_compute.
  - by vm_compute.
Defined.

End UpdateU.
End Actions.
